(** * occ::BRepPointOnFacesProjection

    A shallow embedding of [src/occtools/brep_point_on_faces_projection.cpp]:
    normal projection of a point on a soup of topologic faces.  For every
    face a [GeomAPI_ProjectPointOnSurf] is allocated on the free store; a
    query re-runs every projector and keeps the entry whose projector
    reports the smallest distance.

    The embedding makes the free store explicit (the class owns raw
    pointers), threads faults through a small error monad, and treats the
    geometry kernel (OpenCascade) as an interface. *)

From Stdlib Require Import QArith Qabs.
From Stdlib.Strings Require Byte.
From Stdlib Require Import Ascii.
From stdpp Require Import base option list gmap strings.

Local Open Scope Z_scope.

(** ** Numbers and points *)

(** A finite [double] is a dyadic rational, and [<] on finite doubles is the
    order of the rationals: a [double] is modelled by its exact value.  NaN
    and the two infinities have no counterpart here. *)
Definition double : Type := Q.

(** [std::numeric_limits<double>::max()], that is (2^53 - 1) * 2^971. *)
Definition DBL_MAX : double := inject_Z ((2 ^ 53 - 1) * 2 ^ 971).

(** [a < b] on doubles. *)
Definition double_lt (a b : double) : bool :=
  match (a ?= b)%Q with
  | Lt => true
  | _ => false
  end.

Definition gp_Pnt : Type := double * double * double.
Definition gp_Vec : Type := double * double * double.

(** Modelled from the spec: [occ::origin3d] is declared in
    [occtools/utils.h], which is not among the sources; the specification
    names it the coordinate origin. *)
Definition origin3d : gp_Pnt := (0%Q, 0%Q, 0%Q).

(** ** The geometry kernel *)

(** What [GeomAPI_ProjectPointOnSurf] reports after a projection.  The class
    guards every read of the last three fields by [IsDone] and
    [NbPoints > 0]. *)
Record Projection : Type := {
  IsDone : bool;
  NbPoints : Z;
  LowerDistance : double;
  NearestPoint : gp_Pnt;
  LowerDistanceParameters : double * double
}.

(** The collaborators the class consumes: shapes, faces, surfaces, the
    face explorer, the single-surface projection and the face normal. *)
Class GeomKernel : Type := {
  TopoDS_Shape : Type;
  TopoDS_Face : Type;
  Handle_Geom_Surface : Type;
  (** [TopoDS_Face()], the null face *)
  TopoDS_Face_null : TopoDS_Face;
  (** [TopExp_Explorer exp(shape, TopAbs_FACE)], in exploration order *)
  TopExp_Explorer : TopoDS_Shape → list TopoDS_Face;
  (** [BRep_Tool::Surface] *)
  BRep_Tool_Surface : TopoDS_Face → Handle_Geom_Surface;
  (** the extrema of a point and a surface *)
  Extrema_project : gp_Pnt → Handle_Geom_Surface → Projection;
  (** [occ::normalToFaceAtUV] *)
  normalToFaceAtUV : TopoDS_Face → double → double → gp_Vec
}.

(** ** Faults *)

Inductive Fault : Type :=
  | AssertionFailed (msg : string)
  | InvalidPointer (p : N)
  | InvalidIterator (i : nat).

Inductive Result (A : Type) : Type :=
  | Ok (a : A)
  | Err (f : Fault).
Arguments Ok {A} a.
Arguments Err {A} f.

#[global] Instance Result_ret : MRet Result := λ A a, Ok a.
#[global] Instance Result_bind : MBind Result := λ A B k m,
  match m with
  | Ok a => k a
  | Err f => Err f
  end.

Section Projection.
Context {K : GeomKernel}.

(** ** Projectors on the free store *)

(** A [GeomAPI_ProjectPointOnSurf]: the surface it was initialised with and
    the outcome of its last projection. *)
Record Projector_t : Type := {
  surface : Handle_Geom_Surface;
  extrema : Projection
}.

(** [Projector_t(P, Surface)] *)
Definition Projector_Init (P : gp_Pnt) (S : Handle_Geom_Surface) : Projector_t :=
  {| surface := S; extrema := Extrema_project P S |}.

(** [Perform(P)]: projects again, on the same surface. *)
Definition Projector_Perform (P : gp_Pnt) (pr : Projector_t) : Projector_t :=
  {| surface := surface pr; extrema := Extrema_project P (surface pr) |}.

(** The free store: live projectors by address; [brk] is the next address
    [new] hands out.  Address 0 is the null pointer and addresses are not
    reused, so that a dangling pointer is never live again. *)
Record Heap : Type := {
  cells : gmap N Projector_t;
  brk : N
}.

Definition heap_empty : Heap := {| cells := ∅; brk := 1%N |}.

Definition heap_new (pr : Projector_t) (h : Heap) : N * Heap :=
  (brk h, {| cells := <[brk h := pr]> (cells h); brk := N.succ (brk h) |}).

Definition heap_deref (p : N) (h : Heap) : Result Projector_t :=
  match cells h !! p with
  | Some pr => Ok pr
  | None => Err (InvalidPointer p)
  end.

Definition heap_store (p : N) (pr : Projector_t) (h : Heap) : Heap :=
  {| cells := <[p := pr]> (cells h); brk := brk h |}.

Definition heap_delete (p : N) (h : Heap) : Result Heap :=
  match cells h !! p with
  | Some _ => Ok {| cells := delete p (cells h); brk := brk h |}
  | None => Err (InvalidPointer p)
  end.

(** ** The class *)

(** [typedef std::pair<GeomAPI_ProjectPointOnSurf*, TopoDS_Face> ProjectorInfo_t] *)
Definition ProjectorInfo_t : Type := N * TopoDS_Face.

Record BRepPointOnFacesProjection : Type := {
  _projectors : list ProjectorInfo_t;
  _solProjector : ProjectorInfo_t
}.

(** [BRepPointOnFacesProjection()] *)
Definition construct : BRepPointOnFacesProjection :=
  {| _projectors := []; _solProjector := (0%N, TopoDS_Face_null) |}.

(** The loop of [releaseMemory]. *)
Fixpoint destroy_projectors (ps : list ProjectorInfo_t) (h : Heap) : Result Heap :=
  match ps with
  | [] => Ok h
  | projector :: rest =>
      h' ← (if (projector.1 =? 0)%N then Ok h else heap_delete projector.1 h);
      destroy_projectors rest h'
  end.

Definition releaseMemory (h : Heap) (this : BRepPointOnFacesProjection)
  : Result (Heap * BRepPointOnFacesProjection) :=
  h' ← destroy_projectors (_projectors this) h;
  Ok (h', {| _projectors := []; _solProjector := _solProjector this |}).

(** [~BRepPointOnFacesProjection()] *)
Definition destroy (h : Heap) (this : BRepPointOnFacesProjection) : Result Heap :=
  '(h', _) ← releaseMemory h this;
  Ok h'.

(** The loop of [prepare]: one projector per explored face, pushed back. *)
Fixpoint allocate_projectors (faces : list TopoDS_Face) (h : Heap)
    (ps : list ProjectorInfo_t) : Heap * list ProjectorInfo_t :=
  match faces with
  | [] => (h, ps)
  | iFace :: rest =>
      let iSurf := BRep_Tool_Surface iFace in
      let '(p, h') := heap_new (Projector_Init origin3d iSurf) h in
      allocate_projectors rest h' (ps ++ [(p, iFace)])
  end.

Definition prepare (faces : TopoDS_Shape) (h : Heap) (this : BRepPointOnFacesProjection)
  : Result (Heap * BRepPointOnFacesProjection) :=
  '(h1, this1) ← releaseMemory h this;
  let '(h2, ps) := allocate_projectors (TopExp_Explorer faces) h1 (_projectors this1) in
  Ok (h2, {| _projectors := ps; _solProjector := _solProjector this1 |}).

(** [BRepPointOnFacesProjection(faces)] *)
Definition construct_prepare (faces : TopoDS_Shape) (h : Heap)
  : Result (Heap * BRepPointOnFacesProjection) :=
  prepare faces h construct.

(** The distance [projector_compare] gives a projector. *)
Definition compare_distance (p : Projector_t) : double :=
  if IsDone (extrema p) && (0 <? NbPoints (extrema p))
  then LowerDistance (extrema p)
  else DBL_MAX.

Definition projector_compare (h : Heap) (p1 p2 : N) : Result bool :=
  pr1 ← heap_deref p1 h;
  pr2 ← heap_deref p2 h;
  let p1Dist := compare_distance pr1 in
  let p2Dist := compare_distance pr2 in
  Ok (double_lt p1Dist p2Dist).

(** [std::for_each(.., bind(&Projector_t::Perform, bind(&first, _1), point))] *)
Fixpoint for_each_Perform (point : gp_Pnt) (ps : list ProjectorInfo_t) (h : Heap)
  : Result Heap :=
  match ps with
  | [] => Ok h
  | info :: rest =>
      pr ← heap_deref info.1 h;
      for_each_Perform point rest (heap_store info.1 (Projector_Perform point pr) h)
  end.

(** [std::min_element(first, last, comp)]; an iterator is an index in the
    vector and [last] is its length.  [first] walks the rest of the range,
    [smallest] is the iterator kept so far with the element it points to. *)
Fixpoint min_element_from {A : Type} (comp : A → A → Result bool)
    (rest : list A) (first : nat) (smallest : nat * A) : Result nat :=
  match rest with
  | [] => Ok smallest.1
  | x :: rest' =>
      b ← comp x smallest.2;
      min_element_from comp rest' (S first) (if b : bool then (first, x) else smallest)
  end.

Definition min_element {A : Type} (comp : A → A → Result bool) (v : list A)
  : Result nat :=
  match v with
  | [] => Ok (length v)
  | x :: rest => min_element_from comp rest 1%nat (0%nat, x)
  end.

Definition compute (point : gp_Pnt) (h : Heap) (this : BRepPointOnFacesProjection)
  : Result (Heap * BRepPointOnFacesProjection) :=
  h1 ← for_each_Perform point (_projectors this) h;
  iResult ← min_element (λ a b : ProjectorInfo_t, projector_compare h1 a.1 b.1)
                        (_projectors this);
  if (iResult =? length (_projectors this))%nat
  then Err (AssertionFailed "always_a_minimum")
  else match _projectors this !! iResult with
       | Some info =>
           Ok (h1, {| _projectors := _projectors this; _solProjector := info |})
       | None => Err (InvalidIterator iResult)
       end.

(** [compute] as it is built with [NDEBUG]: the assertion is compiled
    out, and [*iResult] dereferences the iterator [min_element] returned,
    be it the end of the pool. *)
Definition compute_NDEBUG (point : gp_Pnt) (h : Heap) (this : BRepPointOnFacesProjection)
  : Result (Heap * BRepPointOnFacesProjection) :=
  h1 ← for_each_Perform point (_projectors this) h;
  iResult ← min_element (λ a b : ProjectorInfo_t, projector_compare h1 a.1 b.1)
                        (_projectors this);
  match _projectors this !! iResult with
  | Some info =>
      Ok (h1, {| _projectors := _projectors this; _solProjector := info |})
  | None => Err (InvalidIterator iResult)
  end.

Definition isDone (h : Heap) (this : BRepPointOnFacesProjection) : Result bool :=
  let projector := (_solProjector this).1 in
  if negb (projector =? 0)%N
  then pr ← heap_deref projector h;
       Ok (IsDone (extrema pr) && (0 <? NbPoints (extrema pr)))
  else Ok false.

Definition solutionFace (h : Heap) (this : BRepPointOnFacesProjection)
  : Result TopoDS_Face :=
  let emptyFace := TopoDS_Face_null in
  done ← isDone h this;
  if done : bool then Ok (_solProjector this).2 else Ok emptyFace.

Definition solutionPoint (h : Heap) (this : BRepPointOnFacesProjection)
  : Result gp_Pnt :=
  done ← isDone h this;
  if done : bool
  then pr ← heap_deref (_solProjector this).1 h; Ok (NearestPoint (extrema pr))
  else Ok origin3d.

Definition solutionUV (h : Heap) (this : BRepPointOnFacesProjection)
  : Result (double * double) :=
  done ← isDone h this;
  if done : bool
  then pr ← heap_deref (_solProjector this).1 h;
       let '(u, v) := LowerDistanceParameters (extrema pr) in
       Ok (u, v)
  else Ok (0%Q, 0%Q).

Definition solutionNormal (h : Heap) (this : BRepPointOnFacesProjection)
  : Result gp_Vec :=
  done ← isDone h this;
  if done : bool
  then pr ← heap_deref (_solProjector this).1 h;
       let '(u, v) := LowerDistanceParameters (extrema pr) in
       Ok (normalToFaceAtUV (_solProjector this).2 u v)
  else Ok (0%Q, 0%Q, 1%Q).

End Projection.

(** ** Comparators *)

(** The comparator [comp] never faults on the elements of [v] and orders
    them by their [key]. *)
Definition compares_by {A : Type} (comp : A → A → Result bool) (key : A → double)
    (v : list A) : Prop :=
  ∀ x y, x ∈ v → y ∈ v → comp x y = Ok (double_lt (key x) (key y)).

(** ** Well-formed states *)

Section Invariants.
Context {K : GeomKernel}.

(** [new] has never handed out the null pointer or an address at or above
    [brk]. *)
Definition heap_ok (h : Heap) : Prop :=
  brk h ≠ 0%N ∧ map_Forall (λ p _, p ≠ 0%N ∧ (p < brk h)%N) (cells h).

(** The pool owns its projectors: every entry points to a live projector,
    none is null, and no projector is owned twice. *)
Definition pool_ok (h : Heap) (this : BRepPointOnFacesProjection) : Prop :=
  heap_ok h ∧
  NoDup (_projectors this).*1 ∧
  Forall (λ info : ProjectorInfo_t, info.1 ≠ 0%N ∧ is_Some (cells h !! info.1))
         (_projectors this).

#[global] Instance pool_ok_dec h this : Decision (pool_ok h this).
Proof. unfold pool_ok, heap_ok. apply _. Defined.

(** A projector that converged with at least one candidate. *)
Definition converged (pr : Projector_t) : Prop :=
  IsDone (extrema pr) = true ∧ 0 < NbPoints (extrema pr).

(** The entry points to a live projector, which converged. *)
Definition entry_converged (h : Heap) (info : ProjectorInfo_t) : Prop :=
  ∃ pr, cells h !! info.1 = Some pr ∧ converged pr.

(** The distance the selection of [compute] compares an entry by. *)
Definition entry_distance (h : Heap) (info : ProjectorInfo_t) : double :=
  match cells h !! info.1 with
  | Some pr => compare_distance pr
  | None => DBL_MAX
  end.

(** A client that queries the points of [points] one after the other. *)
Fixpoint compute_each (points : list gp_Pnt) (h : Heap)
    (this : BRepPointOnFacesProjection) : Result (Heap * BRepPointOnFacesProjection) :=
  match points with
  | [] => Ok (h, this)
  | point :: rest => '(h', this') ← compute point h this; compute_each rest h' this'
  end.

(** The states a client can bring an object to, from its construction. *)
Inductive reachable : Heap → BRepPointOnFacesProjection → Prop :=
  | reachable_construct : reachable heap_empty construct
  | reachable_prepare faces h this h' this' :
      reachable h this →
      prepare faces h this = Ok (h', this') →
      reachable h' this'
  | reachable_compute point h this h' this' :
      reachable h this →
      compute point h this = Ok (h', this') →
      reachable h' this'.

End Invariants.

(** ** A small kernel to run the class on *)

Module Demo.

(** Faces are their own surfaces: a horizontal plane at height [z], or a
    face without geometry, on which no projection converges.  The distance
    of a point to a plane is exact. *)
Inductive Patch : Type :=
  | PlaneZ (z : Q)
  | Missing.

Definition project (P : gp_Pnt) (S : Patch) : Projection :=
  let '(x, y, z) := P in
  match S with
  | PlaneZ c =>
      {| IsDone := true; NbPoints := 1; LowerDistance := Qabs (z - c);
         NearestPoint := (x, y, c); LowerDistanceParameters := (x, y) |}
  | Missing =>
      {| IsDone := false; NbPoints := 0; LowerDistance := 0%Q;
         NearestPoint := origin3d; LowerDistanceParameters := (0%Q, 0%Q) |}
  end.

#[global] Instance kernel : GeomKernel := {|
  TopoDS_Shape := list Patch;
  TopoDS_Face := Patch;
  Handle_Geom_Surface := Patch;
  TopoDS_Face_null := Missing;
  TopExp_Explorer := λ shape, shape;
  BRep_Tool_Surface := λ face, face;
  Extrema_project := project;
  normalToFaceAtUV := λ _ _ _, (0%Q, 0%Q, 1%Q)
|}.

(** The state after [BRepPointOnFacesProjection(faces)] on an empty store. *)
Definition prepared (faces : list Patch) : Heap * BRepPointOnFacesProjection :=
  match construct_prepare faces heap_empty with
  | Ok s => s
  | Err _ => (heap_empty, construct)
  end.

Definition query : gp_Pnt := ((1 # 2)%Q, (1 # 2)%Q, 3%Q).

(** A point of the plane z = 0. *)
Definition ground : gp_Pnt := ((1 # 2)%Q, (1 # 2)%Q, 0%Q).

(** The state after a further [compute(point)]. *)
Definition queried (point : gp_Pnt) (faces : list Patch)
  : Heap * BRepPointOnFacesProjection :=
  match compute point (prepared faces).1 (prepared faces).2 with
  | Ok s => s
  | Err _ => prepared faces
  end.

(** The state after [prepare(faces')] on top of [compute(query)]. *)
Definition reprepared (faces faces' : list Patch) : Heap * BRepPointOnFacesProjection :=
  match prepare faces' (queried query faces).1 (queried query faces).2 with
  | Ok s => s
  | Err _ => queried query faces
  end.

(** Two unit squares at z = 0 and z = 10. *)
Definition two_squares : list Patch := [PlaneZ 0; PlaneZ 10].

(** A face without geometry, then a plane at height [DBL_MAX], which is at
    distance [DBL_MAX] of [ground]. *)
Definition far_soup : list Patch := [Missing; PlaneZ DBL_MAX].

(** Faces without geometry only. *)
Definition failing_soup : list Patch := [Missing; Missing].

(** Two squares at the same distance of [query], z = 0 and z = 6. *)
Definition tied_squares : list Patch := [PlaneZ 0; PlaneZ 6].

End Demo.

(** ** An allocator that reuses addresses *)

Section Reuse.
Context {K : GeomKernel}.

(** The first address from [p] on that is not live, within [fuel] steps. *)
Fixpoint first_free (fuel : nat) (p : N) (m : gmap N Projector_t) : N :=
  match fuel with
  | O => p
  | S fuel' =>
      match m !! p with
      | None => p
      | Some _ => first_free fuel' (N.succ p) m
      end
  end.

(** [new] as an allocator that hands out the lowest free address, a freed
    one included. *)
Definition heap_new_reuse (pr : Projector_t) (h : Heap) : N * Heap :=
  let p := first_free (S (size (cells h))) 1%N (cells h) in
  (p, {| cells := <[p := pr]> (cells h); brk := N.max (brk h) (N.succ p) |}).

(** [prepare] over a given [new]; [prepare] is [prepare_with heap_new]. *)
Fixpoint allocate_projectors_with (new : Projector_t → Heap → N * Heap)
    (faces : list TopoDS_Face) (h : Heap) (ps : list ProjectorInfo_t)
  : Heap * list ProjectorInfo_t :=
  match faces with
  | [] => (h, ps)
  | iFace :: rest =>
      let iSurf := BRep_Tool_Surface iFace in
      let '(p, h') := new (Projector_Init origin3d iSurf) h in
      allocate_projectors_with new rest h' (ps ++ [(p, iFace)])
  end.

Definition prepare_with (new : Projector_t → Heap → N * Heap)
    (faces : TopoDS_Shape) (h : Heap) (this : BRepPointOnFacesProjection)
  : Result (Heap * BRepPointOnFacesProjection) :=
  '(h1, this1) ← releaseMemory h this;
  let '(h2, ps) :=
    allocate_projectors_with new (TopExp_Explorer faces) h1 (_projectors this1) in
  Ok (h2, {| _projectors := ps; _solProjector := _solProjector this1 |}).

End Reuse.

(** ** Reference distances *)

Section Reference.
Context {K : GeomKernel}.

(** The distance [projector_compare] gives the face [f] once its projector
    was performed on [point]: the lower distance of the projection of
    [point] on the surface of [f] when it converged with a candidate,
    [DBL_MAX] otherwise. *)
Definition face_distance (point : gp_Pnt) (f : TopoDS_Face) : double :=
  compare_distance (Projector_Init point (BRep_Tool_Surface f)).

End Reference.

(** * occ::IO

    [src/occtools/io.cpp]: the format of a part file, from the suffix of its
    name or else from the beginning of its contents, and the loading of a
    part.  Qt and the OpenCascade readers are interfaces; a file is the
    bytes one reads from it. *)

(** The byte order of the host ([Q_BYTE_ORDER]). *)
Inductive ByteOrder : Type :=
  | LittleEndian
  | BigEndian.

(** What the code uses of QtCore.  A [QString] compares to a string
    literal, has a lower-case form, and is searched for a regular
    expression given by its pattern. *)
Class QtCore : Type := {
  QString : Type;
  (** [QFileInfo(name).suffix()] *)
  QFileInfo_suffix : QString → QString;
  (** [s.toLower()] *)
  QString_toLower : QString → QString;
  (** [s == "literal"] *)
  QString_eq : QString → string → bool;
  (** [QString(const QByteArray&)] *)
  QString_of_QByteArray : list Byte.byte → QString;
  (** [s.contains(QRegExp(pattern))] *)
  QString_contains_QRegExp : QString → string → bool;
  Q_BYTE_ORDER : ByteOrder
}.

(** [IFSelect_ReturnStatus] *)
Inductive IFSelect_ReturnStatus : Type :=
  | IFSelect_RetVoid
  | IFSelect_RetDone
  | IFSelect_RetError
  | IFSelect_RetFail
  | IFSelect_RetStop.

#[global] Instance IFSelect_ReturnStatus_eq_dec : EqDecision IFSelect_ReturnStatus.
Proof. solve_decision. Defined.

(** The readers [loadFile] is instantiated with. *)
Inductive XSControl_Reader : Type :=
  | STEPControl_Reader
  | IGESControl_Reader.

(** What is sent to a progress indicator and to the map reader of a work
    session. *)
Inductive ProgressEvent : Type :=
  | NewScope (span : Z) (name : string)
  | EndScope
  | SetProgress (indicator : bool).

Module IO.

(** [IO::Format] *)
Inductive Format : Type :=
  | StepFormat
  | IgesFormat
  | OccBRepFormat
  | AsciiStlFormat
  | BinaryStlFormat
  | UnknownFormat.

#[global] Instance Format_eq_dec : EqDecision Format.
Proof. solve_decision. Defined.

Section IO.
Context {K : GeomKernel} {Qt : QtCore}.

(** The files one can open for reading, with their contents; [None] when
    [QFile::open(QIODevice::ReadOnly)] fails. *)
Definition FileSystem : Type := QString → option (list Byte.byte).

(** What the code uses of the OpenCascade readers. *)
Class Readers : Type := {
  (** [TopoDS_Shape()] *)
  TopoDS_Shape_null : TopoDS_Shape;
  (** [reader.ReadFile(name)] *)
  ReadFile : XSControl_Reader → FileSystem → QString → IFSelect_ReturnStatus;
  (** [reader.OneShape()] after [NbRootsForTransfer()] and
      [TransferRoots()], for a reader that has read the file *)
  OneShape : XSControl_Reader → FileSystem → QString → TopoDS_Shape;
  (** [BRepTools::Read(result, name, builder, indicator)]: the shape
      [result] holds afterwards *)
  BRepTools_Read : TopoDS_Shape → FileSystem → QString → TopoDS_Shape
}.
Context {R : Readers}.

(** Arithmetic of [unsigned] and [quint32]: modulo 2^32. *)
Definition wrap32 (z : Z) : Z := z mod 2 ^ 32.

(** The [quint32] whose object representation is the four bytes [bs]. *)
Definition quint32_of_bytes (order : ByteOrder) (bs : list Byte.byte) : Z :=
  let digits := (λ b, Z.of_N (Byte.to_N b)) <$> bs in
  let little := foldr (λ d acc, d + 256 * acc) 0 in
  match order with
  | LittleEndian => little digits
  | BigEndian => little (reverse digits)
  end.

(** [buffer.seek(80); buffer.read(&facetsCount, sizeof(quint32))] on a
    buffer over [contentsBegin], [facetsCount] being 0 before. *)
Definition read_facetsCount (contentsBegin : list Byte.byte) : Z :=
  quint32_of_bytes Q_BYTE_ORDER (take 4 (drop 80 contentsBegin)).

Definition partFormat (fs : FileSystem) (filename : QString) : Format :=
  let suffix := QString_toLower (QFileInfo_suffix filename) in
  if QString_eq suffix "step" || QString_eq suffix "stp" then StepFormat
  else if QString_eq suffix "iges" || QString_eq suffix "igs" then IgesFormat
  else if QString_eq suffix "brep" || QString_eq suffix "rle" then OccBRepFormat
  else if QString_eq suffix "stla" then AsciiStlFormat
  else if QString_eq suffix "stlb" then BinaryStlFormat
  else
    match fs filename with
    | None => UnknownFormat
    | Some file =>
        let contentsBegin := take 2048 file in
        let contentsBeginText := QString_of_QByteArray contentsBegin in
        if QString_contains_QRegExp contentsBeginText
             "^.{72}S\s*[0-9]+\s*[\n\r\f]"
        then IgesFormat
        else if QString_contains_QRegExp contentsBeginText
                  "^\s*ISO-10303-21\s*;\s*HEADER"
        then StepFormat
        else if QString_contains_QRegExp contentsBeginText
                  "^\s*DBRep_DrawableShape"
        then OccBRepFormat
        else if QString_contains_QRegExp contentsBeginText "^\s*solid"
        then AsciiStlFormat
        else
          let binaryStlHeaderSize := 80 + 4 in
          if binaryStlHeaderSize <=? Z.of_nat (length contentsBegin) then
            let facetsCount := read_facetsCount contentsBegin in
            let facetSize := 4 * 12 + 2 in
            if wrap32 (wrap32 (facetSize * facetsCount) + binaryStlHeaderSize)
               =? Z.of_nat (length file)
            then BinaryStlFormat
            else UnknownFormat
          else UnknownFormat
    end.

(** [::loadFile<_READER_>(fileName, indicator)]; [indicator] tells whether
    the handle is not null.  The result comes with what was sent to the
    indicator and to the map reader, in order. *)
Definition loadFile (reader : XSControl_Reader) (fs : FileSystem)
    (fileName : QString) (indicator : bool) : TopoDS_Shape * list ProgressEvent :=
  let result := TopoDS_Shape_null in
  let ev1 := if indicator then [NewScope 30 "Loading file"] else [] in
  let status := ReadFile reader fs fileName in
  let ev2 := if indicator then [EndScope] else [] in
  if decide (status = IFSelect_RetDone) then
    let ev3 := if indicator
               then [SetProgress true; NewScope 70 "Translating file"] else [] in
    let result := OneShape reader fs fileName in
    let ev4 := if indicator then [EndScope; SetProgress false] else [] in
    (result, ev1 ++ ev2 ++ ev3 ++ ev4)
  else (result, ev1 ++ ev2).

Definition loadBrepFile (fs : FileSystem) (fileName : QString) : TopoDS_Shape :=
  let result := TopoDS_Shape_null in
  BRepTools_Read result fs fileName.

Definition loadIgesFile (fs : FileSystem) (fileName : QString) (indicator : bool)
  : TopoDS_Shape * list ProgressEvent :=
  loadFile IGESControl_Reader fs fileName indicator.

Definition loadStepFile (fs : FileSystem) (fileName : QString) (indicator : bool)
  : TopoDS_Shape * list ProgressEvent :=
  loadFile STEPControl_Reader fs fileName indicator.

(** [IO::loadPartFile]; [indicator] is the default argument of the
    loaders, which [io.h] declares. *)
Definition loadPartFile (indicator : bool) (fs : FileSystem) (filename : QString)
  : TopoDS_Shape :=
  match partFormat fs filename with
  | StepFormat => (loadStepFile fs filename indicator).1
  | IgesFormat => (loadIgesFile fs filename indicator).1
  | OccBRepFormat => loadBrepFile fs filename
  | _ => TopoDS_Shape_null
  end.

(** The depth of the scopes of an indicator after [events], from [depth];
    [None] when a scope is ended that was not opened. *)
Fixpoint scope_depth (events : list ProgressEvent) (depth : nat) : option nat :=
  match events with
  | [] => Some depth
  | NewScope _ _ :: rest => scope_depth rest (S depth)
  | EndScope :: rest =>
      match depth with
      | O => None
      | S d => scope_depth rest d
      end
  | SetProgress _ :: rest => scope_depth rest depth
  end.

(** The indicator the map reader is left with: the argument of the last
    [SetProgress], or [from] when there is none. *)
Definition final_progress (events : list ProgressEvent) (from : bool) : bool :=
  foldl (λ cur e, match e with SetProgress b => b | _ => cur end) from events.

End IO.
End IO.

(** ** More runs of the class on the small kernel *)

Module DemoRuns.

(** An object with a history: [prepare] of one square, a query, then
    [prepare(faces)]; and the state after a further [compute(point)]. *)
Definition prepared_again (faces : list Demo.Patch)
  : Heap * BRepPointOnFacesProjection :=
  Demo.reprepared [Demo.PlaneZ 0] faces.

Definition queried_again (point : gp_Pnt) (faces : list Demo.Patch)
  : Heap * BRepPointOnFacesProjection :=
  match compute point (prepared_again faces).1 (prepared_again faces).2 with
  | Ok s => s
  | Err _ => prepared_again faces
  end.

(** The state after [releaseMemory]. *)
Definition released (s : Heap * BRepPointOnFacesProjection)
  : Heap * BRepPointOnFacesProjection :=
  match releaseMemory s.1 s.2 with
  | Ok s' => s'
  | Err _ => s
  end.

End DemoRuns.

(** ** A small Qt and small readers to run [occ::IO] on *)

Module DemoIO.

Local Open Scope string_scope.

(** The part of [s] after the last [c], if [c] occurs. *)
Fixpoint after_last (c : Ascii.ascii) (s : string) (found : option string) : option string :=
  match s with
  | EmptyString => found
  | String a rest =>
      after_last c rest (if Ascii.eqb a c then Some rest else found)
  end.

Definition suffix (name : string) : string :=
  let fileName := default name (after_last "/"%char name None) in
  default "" (after_last "."%char fileName None).

Definition lower (a : Ascii.ascii) : Ascii.ascii :=
  let n := Ascii.N_of_ascii a in
  if ((65 <=? n) && (n <=? 90))%N then Ascii.ascii_of_N (n + 32) else a.

Fixpoint toLower (s : string) : string :=
  match s with
  | EmptyString => EmptyString
  | String a rest => String (lower a) (toLower rest)
  end.

(** [QChar::isSpace] on the characters of Latin-1. *)
Definition is_space (a : Ascii.ascii) : bool :=
  let n := Ascii.N_of_ascii a in
  ((n =? 32) || ((9 <=? n) && (n <=? 13)) || (n =? 160))%N.

Definition is_digit (a : Ascii.ascii) : bool :=
  let n := Ascii.N_of_ascii a in
  ((48 <=? n) && (n <=? 57))%N.

Fixpoint skip_space (s : string) : string :=
  match s with
  | String a rest => if is_space a then skip_space rest else s
  | EmptyString => s
  end.

(** [s] without the prefix [lit], when it starts with it. *)
Fixpoint strip (lit s : string) : option string :=
  match lit, s with
  | EmptyString, _ => Some s
  | String a lit', String b s' => if Ascii.eqb a b then strip lit' s' else None
  | String _ _, EmptyString => None
  end.

Fixpoint skip_digits (s : string) : string :=
  match s with
  | String a rest => if is_digit a then skip_digits rest else s
  | EmptyString => s
  end.

(** [s] without its first [n] characters, when it has that many. *)
Fixpoint skip_any (n : nat) (s : string) : option string :=
  match n, s with
  | O, _ => Some s
  | S n', String _ rest => skip_any n' rest
  | S _, EmptyString => None
  end.

(** The white space [s] starts with holds a line feed, a carriage return
    or a form feed. *)
Fixpoint ends_line (s : string) : bool :=
  match s with
  | String a rest =>
      let n := Ascii.N_of_ascii a in
      is_space a && (((n =? 10) || (n =? 13) || (n =? 12))%N || ends_line rest)
  | EmptyString => false
  end.

(** [^.{72}S\s*[0-9]+\s*[\n\r\f]]: 72 characters, an S, white space, at
    least one digit, then white space that holds the end of a line. *)
Definition matches_iges (text : string) : bool :=
  match skip_any 72 text with
  | Some (String a rest) =>
      let digits := skip_space rest in
      let tail := skip_digits digits in
      Ascii.eqb a "S" && negb (String.eqb digits tail) && ends_line tail
  | _ => false
  end.

(** The four patterns of [partFormat], each anchored at the beginning of
    the text; any other pattern matches nothing. *)
Definition contains_QRegExp (text pattern : string) : bool :=
  if String.eqb pattern "^.{72}S\s*[0-9]+\s*[\n\r\f]" then matches_iges text
  else if String.eqb pattern "^\s*solid" then
    bool_decide (is_Some (strip "solid" (skip_space text)))
  else if String.eqb pattern "^\s*DBRep_DrawableShape" then
    bool_decide (is_Some (strip "DBRep_DrawableShape" (skip_space text)))
  else if String.eqb pattern "^\s*ISO-10303-21\s*;\s*HEADER" then
    match strip "ISO-10303-21" (skip_space text) with
    | Some t =>
        match strip ";" (skip_space t) with
        | Some u => bool_decide (is_Some (strip "HEADER" (skip_space u)))
        | None => false
        end
    | None => false
    end
  else false.

#[global] Instance qt : QtCore := {|
  QString := string;
  QFileInfo_suffix := suffix;
  QString_toLower := toLower;
  QString_eq := String.eqb;
  QString_of_QByteArray := String.string_of_list_byte;
  QString_contains_QRegExp := contains_QRegExp;
  Q_BYTE_ORDER := LittleEndian
|}.

(** Readers that read any file that opens, and translate it to one
    square. *)
#[global] Instance readers : IO.Readers (K := Demo.kernel) := {|
  IO.TopoDS_Shape_null := [];
  IO.ReadFile := λ _ fs name,
    match fs name with Some _ => IFSelect_RetDone | None => IFSelect_RetFail end;
  IO.OneShape := λ _ _ _, [Demo.PlaneZ 0];
  IO.BRepTools_Read := λ result fs name,
    match fs name with Some _ => Demo.two_squares | None => result end
|}.

(** A binary STL file of one facet: 80 bytes of header, the count, 50
    bytes. *)
Definition one_facet_stl : list Byte.byte :=
  repeat Byte.x00 80 ++ [Byte.x01; Byte.x00; Byte.x00; Byte.x00] ++ repeat Byte.x00 50.

(** 88 bytes whose count, 85899346, makes [50 * count + 84] wrap to 88. *)
Definition wrapping_stl : list Byte.byte :=
  repeat Byte.x00 80 ++ [Byte.x52; Byte.xb8; Byte.x1e; Byte.x05] ++ repeat Byte.x00 4.

(** The first line of an IGES file: 72 columns, the section letter S and
    the sequence number, then a line feed. *)
Definition iges_start : list Byte.byte :=
  repeat Byte.x20 72 ++ [Byte.x53; Byte.x20; Byte.x20; Byte.x20; Byte.x20; Byte.x20;
                         Byte.x20; Byte.x31; Byte.x0a].

Definition files : IO.FileSystem := λ name,
  if String.eqb name "models/cube.bin" then Some one_facet_stl
  else if String.eqb name "models/odd.bin" then Some wrapping_stl
  else if String.eqb name "models/gear.STP"
  then Some (String.list_byte_of_string "ISO-10303-21; HEADER;")
  else if String.eqb name "mesh.stla" then Some (String.list_byte_of_string "solid mesh")
  else if String.eqb name "models/plate" then Some iges_start
  else None.

(** No file opens. *)
Definition no_file : IO.FileSystem := λ _, None.

End DemoIO.

(** * Properties *)

(** Two squares at z = 0 and z = 10 and the point (0.5, 0.5, 3): the face
    at z = 0 is selected, at distance 3. *)
Example demo_two_squares :
  let '(h, this) := Demo.prepared Demo.two_squares in
  ∃ h' this',
    compute Demo.query h this = Ok (h', this') ∧
    isDone h' this' = Ok true ∧
    solutionFace h' this' = Ok (Demo.PlaneZ 0) ∧
    solutionPoint h' this' = Ok ((1 # 2)%Q, (1 # 2)%Q, 0%Q) ∧
    entry_distance h' (_solProjector this') = 3%Q.
Proof. vm_compute. eexists _, _. repeat split. Qed.

(** ** The order on doubles *)

Lemma double_lt_true a b : double_lt a b = true ↔ (a < b)%Q.
Proof.
  unfold double_lt. rewrite Qlt_alt.
  destruct (a ?= b)%Q; split; congruence.
Qed.

Lemma double_lt_false a b : double_lt a b = false ↔ (b <= a)%Q.
Proof.
  rewrite <- not_true_iff_false, double_lt_true.
  split; [apply Qnot_lt_le | apply Qle_not_lt].
Qed.

(** ** Faults propagate *)

Lemma bind_Ok {A B} (m : Result A) (k : A → Result B) b :
  m ≫= k = Ok b ↔ ∃ a, m = Ok a ∧ k a = Ok b.
Proof.
  destruct m as [a|f]; simpl; split.
  - eauto.
  - intros (a' & [= <-] & Hk). exact Hk.
  - discriminate.
  - intros (a' & [=] & _).
Qed.

(** ** [std::min_element] *)

Section MinElement.
Context {A : Type} (comp : A → A → Result bool) (key : A → double).

Lemma compares_by_weaken (v w : list A) :
  (∀ x, x ∈ w → x ∈ v) → compares_by comp key v → compares_by comp key w.
Proof. intros Hsub Hv x y Hx Hy. apply Hv; auto. Qed.

Lemma min_element_from_spec (rest : list A) (first i : nat) (s : A) :
  (i < first)%nat →
  compares_by comp key (s :: rest) →
  ∃ r e, min_element_from comp rest first (i, s) = Ok r ∧
    (r = i ∧ e = s ∨ ∃ j, r = (first + j)%nat ∧ rest !! j = Some e) ∧
    (key e <= key s)%Q ∧
    (r ≠ i → (key e < key s)%Q) ∧
    (∀ x, x ∈ rest → (key e <= key x)%Q) ∧
    (∀ j x, rest !! j = Some x → (first + j < r)%nat → (key e < key x)%Q).
Proof.
  revert first i s. induction rest as [|x rest IH]; intros first i s Hi Hcomp.
  - exists i, s. split_and!.
    + done.
    + by left.
    + apply Qle_refl.
    + intros Hne. by destruct Hne.
    + intros x Hx. by apply not_elem_of_nil in Hx.
    + intros j x Hj. by rewrite lookup_nil in Hj.
  - cbn [min_element_from fst snd].
    rewrite (Hcomp x s) by (rewrite !elem_of_cons; auto). cbn [mbind Result_bind].
    destruct (double_lt (key x) (key s)) eqn:Hlt.
    + apply double_lt_true in Hlt.
      destruct (IH (S first) first x) as (r & e & Hrun & Hpos & Hle & Hstrict & Hall & Hbefore).
      { lia. }
      { eapply compares_by_weaken; [|exact Hcomp]. intros y. rewrite !elem_of_cons. tauto. }
      assert (Hes : (key e < key s)%Q) by (eapply Qle_lt_trans; eauto).
      exists r, e. split_and!.
      * done.
      * right. destruct Hpos as [[-> ->]|(j & -> & Hj)].
        -- exists 0%nat. split; [lia | done].
        -- exists (S j). split; [lia | done].
      * by apply Qlt_le_weak.
      * done.
      * intros y [->|Hy]%elem_of_cons; auto.
      * intros [|j] y Hj Hjr; cbn in Hj.
        -- injection Hj as <-. apply Hstrict. lia.
        -- apply (Hbefore j); [done | lia].
    + apply double_lt_false in Hlt.
      destruct (IH (S first) i s) as (r & e & Hrun & Hpos & Hle & Hstrict & Hall & Hbefore).
      { lia. }
      { eapply compares_by_weaken; [|exact Hcomp]. intros y. rewrite !elem_of_cons. tauto. }
      exists r, e. split_and!.
      * done.
      * destruct Hpos as [?|(j & -> & Hj)]; [by left | right].
        exists (S j). split; [lia | done].
      * done.
      * done.
      * intros y [->|Hy]%elem_of_cons; auto. eapply Qle_trans; eauto.
      * intros [|j] y Hj Hjr; cbn in Hj.
        -- injection Hj as <-. eapply Qlt_le_trans; [|exact Hlt]. apply Hstrict. lia.
        -- apply (Hbefore j); [done | lia].
Qed.

(** On a non-empty range [min_element] returns the first iterator whose
    element has the minimal key. *)
Lemma min_element_spec (v : list A) :
  v ≠ [] →
  compares_by comp key v →
  ∃ r e, min_element comp v = Ok r ∧
    v !! r = Some e ∧
    (∀ x, x ∈ v → (key e <= key x)%Q) ∧
    (∀ j x, v !! j = Some x → (j < r)%nat → (key e < key x)%Q).
Proof.
  destruct v as [|s rest]; [done|]. intros _ Hcomp.
  destruct (min_element_from_spec rest 1 0 s)
    as (r & e & Hrun & Hpos & Hle & Hstrict & Hall & Hbefore); [lia | done |].
  exists r, e. split_and!.
  - done.
  - destruct Hpos as [[-> ->]|(j & -> & Hj)]; done.
  - intros y [->|Hy]%elem_of_cons; auto.
  - intros [|j] y Hj Hjr; cbn in Hj.
    + injection Hj as <-. apply Hstrict. lia.
    + apply (Hbefore j); [done | lia].
Qed.

End MinElement.

Section Lemmas.
Context {K : GeomKernel}.
Implicit Types (h : Heap) (this : BRepPointOnFacesProjection).
Implicit Types (ps : list ProjectorInfo_t) (info : ProjectorInfo_t).
Implicit Types (point : gp_Pnt) (pr : Projector_t) (p : N).

(** ** Projectors *)

Lemma heap_deref_Ok p h pr : heap_deref p h = Ok pr ↔ cells h !! p = Some pr.
Proof.
  unfold heap_deref. destruct (cells h !! p); split; congruence.
Qed.

Lemma heap_eq h1 h2 : cells h1 = cells h2 → brk h1 = brk h2 → h1 = h2.
Proof. destruct h1, h2; simpl; congruence. Qed.

(** ** [for_each_Perform] *)

(** The projectors of the pool are performed on the point, the other cells
    of the store are left alone. *)
Lemma for_each_Perform_lookup point ps h h1 :
  for_each_Perform point ps h = Ok h1 →
  brk h1 = brk h ∧
  ∀ p, cells h1 !! p =
       if decide (p ∈ ps.*1) then Projector_Perform point <$> cells h !! p
       else cells h !! p.
Proof.
  revert h. induction ps as [|info rest IH]; intros h; cbn [for_each_Perform].
  - intros [= <-]. split; [done|]. intros p. rewrite decide_False; [done | apply not_elem_of_nil].
  - rewrite bind_Ok. intros (pr & Hpr%heap_deref_Ok & Hrest).
    destruct (IH _ Hrest) as [Hbrk Hcells]. split; [done|].
    intros p. rewrite Hcells. cbn [heap_store cells]. rewrite fmap_cons.
    destruct (decide (p = info.1)) as [->|Hne].
    + rewrite lookup_insert_eq, Hpr.
      rewrite (decide_True (P := info.1 ∈ info.1 :: _)) by (apply elem_of_cons; auto).
      by destruct (decide _).
    + rewrite lookup_insert_ne by done.
      destruct (decide (p ∈ rest.*1)) as [Hin|Hnin].
      * by rewrite decide_True by (apply elem_of_cons; auto).
      * by rewrite decide_False by (rewrite elem_of_cons; tauto).
Qed.

(** It dereferences every pointer of the pool, and nothing else can fail. *)
Lemma for_each_Perform_Ok point ps h :
  Forall (λ info, is_Some (cells h !! info.1)) ps ↔
  ∃ h1, for_each_Perform point ps h = Ok h1.
Proof.
  revert h. induction ps as [|info rest IH]; intros h; simpl.
  - split; [eauto | constructor].
  - rewrite Forall_cons. setoid_rewrite bind_Ok. split.
    + intros [[pr Hpr] Hrest].
      destruct (IH (heap_store info.1 (Projector_Perform point pr) h)) as [[h1 Hh1] _].
      { eapply Forall_impl; [exact Hrest|]. intros info' [pr' Hpr']. simpl.
        destruct (decide (info.1 = info'.1)) as [->|Hne].
        - rewrite lookup_insert_eq. eauto.
        - rewrite lookup_insert_ne by done. eauto. }
      exists h1, pr. by rewrite heap_deref_Ok.
    + intros (h1 & pr & Hpr%heap_deref_Ok & Hrest). split; [eauto|].
      assert (Hlive : Forall (λ info', is_Some
        (cells (heap_store info.1 (Projector_Perform point pr) h) !! info'.1)) rest)
        by (apply IH; eauto).
      eapply Forall_impl; [exact Hlive|]. intros info'. simpl.
      destruct (decide (info.1 = info'.1)) as [<-|Hne].
      * eauto.
      * by rewrite lookup_insert_ne.
Qed.

Lemma for_each_Perform_live point ps h h1 info :
  for_each_Perform point ps h = Ok h1 → info ∈ ps →
  ∃ pr, cells h !! info.1 = Some pr ∧
        cells h1 !! info.1 = Some (Projector_Perform point pr).
Proof.
  intros Hrun Hin.
  assert (Hlive : Forall (λ info, is_Some (cells h !! info.1)) ps)
    by (apply (for_each_Perform_Ok point); eauto).
  rewrite Forall_forall in Hlive. destruct (Hlive _ Hin) as [pr Hpr].
  exists pr. split; [done|].
  destruct (for_each_Perform_lookup _ _ _ _ Hrun) as [_ ->].
  rewrite decide_True, Hpr; [done|]. by apply list_elem_of_fmap_2.
Qed.

(** ** [compute] *)

Lemma projector_compare_by h ps :
  Forall (λ info, is_Some (cells h !! info.1)) ps →
  compares_by (λ a b : ProjectorInfo_t, projector_compare h a.1 b.1)
              (entry_distance h) ps.
Proof.
  rewrite Forall_forall. intros Hlive a b Ha Hb.
  destruct (Hlive a Ha) as [pra Hpra], (Hlive b Hb) as [prb Hprb].
  unfold projector_compare, entry_distance, heap_deref.
  by rewrite Hpra, Hprb.
Qed.

Lemma for_each_Perform_live_after point ps h h1 :
  for_each_Perform point ps h = Ok h1 →
  Forall (λ info, is_Some (cells h1 !! info.1)) ps.
Proof.
  intros Hrun. apply Forall_forall. intros info Hin.
  destruct (for_each_Perform_live _ _ _ _ _ Hrun Hin) as (pr & _ & ->). eauto.
Qed.

(** What a [compute] that returns has done: every projector of the pool
    was performed on the point, and the stored entry is the first entry of
    the pool with the least distance. *)
Lemma compute_inv point h this h' this' :
  compute point h this = Ok (h', this') →
  for_each_Perform point (_projectors this) h = Ok h' ∧
  _projectors this' = _projectors this ∧
  ∃ i : nat,
    _projectors this !! i = Some (_solProjector this') ∧
    (∀ info, info ∈ _projectors this →
       (entry_distance h' (_solProjector this') <= entry_distance h' info)%Q) ∧
    (∀ (j : nat) info, _projectors this !! j = Some info → (j < i)%nat →
       (entry_distance h' (_solProjector this') < entry_distance h' info)%Q).
Proof.
  unfold compute. rewrite bind_Ok. intros (h1 & Hrun & Hsel).
  rewrite bind_Ok in Hsel. destruct Hsel as (iResult & Hmin & Hres).
  destruct (decide (_projectors this = [])) as [Hnil|Hne].
  { rewrite Hnil in Hmin, Hres. injection Hmin as <-. discriminate Hres. }
  destruct (min_element_spec _ _ _ Hne
              (projector_compare_by h1 _ (for_each_Perform_live_after _ _ _ _ Hrun)))
    as (r & e & Hr & He & Hle & Hbefore).
  rewrite Hr in Hmin. injection Hmin as <-.
  rewrite He in Hres.
  destruct (Nat.eqb_spec r (length (_projectors this))) as [Heq|_]; [done|].
  injection Hres as <- <-. split_and!; [done..|].
  exists r. split_and!; done.
Qed.

(** [compute] returns as soon as the pool is not empty and its pointers are
    live. *)
Lemma compute_Ok point h this :
  _projectors this ≠ [] →
  Forall (λ info, is_Some (cells h !! info.1)) (_projectors this) →
  ∃ h' this', compute point h this = Ok (h', this').
Proof.
  intros Hne Hlive.
  destruct (proj1 (for_each_Perform_Ok point _ _) Hlive) as [h1 Hrun].
  destruct (min_element_spec _ _ _ Hne
              (projector_compare_by h1 _ (for_each_Perform_live_after _ _ _ _ Hrun)))
    as (r & e & Hr & He & _).
  unfold compute. rewrite Hrun. cbn [mbind Result_bind]. rewrite Hr.
  cbn [mbind Result_bind]. rewrite He.
  apply lookup_lt_Some in He.
  destruct (Nat.eqb_spec r (length (_projectors this))) as [Heq|_]; [lia|].
  eauto.
Qed.


(** Performing on [point] forgets an earlier query. *)
Lemma for_each_Perform_again point point' ps h h1 hq :
  for_each_Perform point ps h = Ok h1 →
  for_each_Perform point' ps h = Ok hq →
  for_each_Perform point ps hq = Ok h1.
Proof.
  intros Hrun Hq.
  destruct (proj1 (for_each_Perform_Ok point _ _) (for_each_Perform_live_after _ _ _ _ Hq))
    as [h2 Hrun'].
  rewrite Hrun'. f_equal.
  destruct (for_each_Perform_lookup _ _ _ _ Hrun) as [Hbrk Hcells].
  destruct (for_each_Perform_lookup _ _ _ _ Hq) as [Hbrkq Hcellsq].
  destruct (for_each_Perform_lookup _ _ _ _ Hrun') as [Hbrk' Hcells'].
  apply heap_eq; [|congruence].
  apply map_eq. intros p. rewrite Hcells, Hcells', Hcellsq.
  destruct (decide (p ∈ ps.*1)); [|done].
  by destruct (cells h !! p).
Qed.

Lemma compute_requery point point' h this h1 this1 hq thisq :
  compute point h this = Ok (h1, this1) →
  compute point' h this = Ok (hq, thisq) →
  compute point hq thisq = Ok (h1, this1).
Proof.
  intros Hcompute Hq.
  destruct (compute_inv _ _ _ _ _ Hcompute) as (Hrun & _).
  destruct (compute_inv _ _ _ _ _ Hq) as (Hrunq & Hpoolq & _).
  pose proof (for_each_Perform_again _ _ _ _ _ _ Hrun Hrunq) as Hagain.
  unfold compute in Hcompute |- *.
  rewrite Hpoolq, Hagain. by rewrite Hrun in Hcompute.
Qed.

Lemma compute_empty point h this :
  _projectors this = [] →
  compute point h this = Err (AssertionFailed "always_a_minimum").
Proof. intros Hnil. unfold compute. by rewrite Hnil. Qed.

End Lemmas.

Section Ownership.
Context {K : GeomKernel}.
Implicit Types (h : Heap) (this : BRepPointOnFacesProjection).
Implicit Types (ps : list ProjectorInfo_t) (info : ProjectorInfo_t).

Lemma pool_ok_live h this :
  pool_ok h this →
  Forall (λ info, is_Some (cells h !! info.1)) (_projectors this).
Proof.
  intros (_ & _ & Hlive). eapply Forall_impl; [exact Hlive|]. by intros info [_ ?].
Qed.

Lemma pool_ok_construct : pool_ok heap_empty construct.
Proof.
  split_and!.
  - split; [done | apply map_Forall_empty].
  - constructor.
  - constructor.
Qed.

(** ** [releaseMemory] *)

Lemma destroy_projectors_spec ps h :
  NoDup ps.*1 →
  Forall (λ info, info.1 ≠ 0%N ∧ is_Some (cells h !! info.1)) ps →
  ∃ h', destroy_projectors ps h = Ok h' ∧
    brk h' = brk h ∧
    ∀ p, cells h' !! p = if decide (p ∈ ps.*1) then None else cells h !! p.
Proof.
  revert h. induction ps as [|info rest IH]; intros h Hnodup Hlive.
  - exists h. split_and!; [done..|]. intros p.
    rewrite decide_False; [done | apply not_elem_of_nil].
  - rewrite fmap_cons in Hnodup. apply NoDup_cons in Hnodup as [Hfresh Hnodup].
    apply Forall_cons in Hlive as [[Hnn [pr Hpr]] Hlive].
    cbn [destroy_projectors]. unfold heap_delete.
    destruct (N.eqb_spec info.1 0) as [|_]; [done|].
    rewrite Hpr. cbn [mbind Result_bind].
    destruct (IH {| cells := delete info.1 (cells h); brk := brk h |})
      as (h' & Hrun & Hbrk & Hcells); [done| |].
    { rewrite Forall_forall in Hlive |- *. intros info' Hin.
      destruct (Hlive _ Hin) as [Hnn' Hsome]. split; [done|]. cbn [cells].
      rewrite lookup_delete_ne; [done|]. intros Heq. apply Hfresh.
      rewrite Heq. by apply list_elem_of_fmap_2. }
    exists h'. split_and!; [done..|]. intros p. rewrite Hcells, fmap_cons. cbn [cells].
    destruct (decide (p ∈ rest.*1)) as [Hin|Hnin].
    + by rewrite decide_True by (apply elem_of_cons; auto).
    + destruct (decide (p = info.1)) as [->|Hne].
      * rewrite lookup_delete_eq. by rewrite decide_True by (apply elem_of_cons; auto).
      * rewrite lookup_delete_ne by done.
        by rewrite decide_False by (rewrite elem_of_cons; tauto).
Qed.

(** ** [prepare] *)

Lemma heap_new_ok (pr : Projector_t) h :
  heap_ok h → heap_ok (heap_new pr h).2.
Proof.
  intros [Hbrk Hkeys]. split; cbn [heap_new snd brk cells].
  - apply N.neq_succ_0.
  - apply map_Forall_insert_2; [lia|].
    eapply map_Forall_impl; [exact Hkeys|]. cbn. lia.
Qed.

Lemma allocate_projectors_spec faces h ps h' ps' :
  heap_ok h →
  allocate_projectors faces h ps = (h', ps') →
  ∃ new,
    ps' = ps ++ new ∧
    new.*2 = faces ∧
    NoDup new.*1 ∧
    heap_ok h' ∧
    (brk h <= brk h')%N ∧
    Forall (λ info, (brk h <= info.1)%N ∧
              cells h' !! info.1 =
                Some (Projector_Init origin3d (BRep_Tool_Surface info.2))) new ∧
    (∀ p, (p < brk h)%N → cells h' !! p = cells h !! p).
Proof.
  revert h ps. induction faces as [|iFace rest IH]; intros h ps Hok;
    cbn [allocate_projectors].
  - intros [= <- <-]. exists []. rewrite app_nil_r.
    split_and!; [done | done | constructor | done | lia | constructor | done].
  - intros Hrun.
    destruct (IH _ _ (heap_new_ok (Projector_Init origin3d (BRep_Tool_Surface iFace)) h Hok)
                Hrun)
      as (new & -> & Hfaces & Hnodup & Hok' & Hbrk & Hnew & Hold).
    cbn [heap_new snd brk cells] in Hbrk, Hnew, Hold.
    exists ((brk h, iFace) :: new). split_and!.
    + by rewrite <- app_assoc.
    + by rewrite fmap_cons, Hfaces.
    + rewrite fmap_cons. apply NoDup_cons. split; [|done].
      intros (info & Heq & Hin)%list_elem_of_fmap_1.
      rewrite Forall_forall in Hnew. destruct (Hnew _ Hin) as [Hge _].
      cbn in Heq. lia.
    + done.
    + lia.
    + apply Forall_cons. split.
      * split; [cbn; lia|]. cbn [fst snd].
        rewrite Hold by lia. apply lookup_insert_eq.
      * eapply Forall_impl; [exact Hnew|]. intros info [Hge Hinit]. split; [lia | done].
    + intros p Hp. rewrite Hold by lia. apply lookup_insert_ne. lia.
Qed.

(** [prepare] on a well-formed state returns; it deletes every projector of
    the previous pool, builds the new pool from the faces of the shape, one
    fresh projector each, in exploration order, and does not touch
    [_solProjector]. *)
Lemma prepare_spec faces h this :
  pool_ok h this →
  ∃ h' this',
    prepare faces h this = Ok (h', this') ∧
    pool_ok h' this' ∧
    (_projectors this').*2 = TopExp_Explorer faces ∧
    Forall (λ info, cells h' !! info.1 =
              Some (Projector_Init origin3d (BRep_Tool_Surface info.2)))
           (_projectors this') ∧
    Forall (λ info, cells h' !! info.1 = None) (_projectors this) ∧
    _solProjector this' = _solProjector this.
Proof.
  intros (Hok & Hnodup & Hlive).
  destruct (destroy_projectors_spec _ h Hnodup Hlive) as (h1 & Hdestroy & Hbrk1 & Hcells1).
  assert (Hok1 : heap_ok h1).
  { destruct Hok as [Hbrk Hkeys]. split; [by rewrite Hbrk1|].
    intros p pr. rewrite Hcells1, Hbrk1. case_decide; [done|]. apply Hkeys. }
  unfold prepare, releaseMemory. rewrite Hdestroy. cbn [mbind Result_bind _projectors].
  destruct (allocate_projectors (TopExp_Explorer faces) h1 []) as [h2 ps2] eqn:Halloc.
  destruct (allocate_projectors_spec _ _ _ _ _ Hok1 Halloc)
    as (new & -> & Hfaces & Hnodup2 & Hok2 & Hbrk2 & Hnew & Hold).
  cbn [app] in *. exists h2, {| _projectors := new; _solProjector := _solProjector this |}.
  cbn [_projectors _solProjector]. split_and!; [done| |done| | |done].
  - split_and!; [done..|].
    eapply Forall_impl; [exact Hnew|]. intros info [Hge Hinit]. cbn beta.
    rewrite Hinit. split; [|eauto]. destruct Hok1 as [Hnz _]. lia.
  - eapply Forall_impl; [exact Hnew|]. by intros info [_ ?].
  - rewrite Forall_forall in Hlive |- *. intros info Hin.
    destruct (Hlive _ Hin) as [_ [pr Hpr]].
    assert (Hlt : (info.1 < brk h)%N) by (destruct Hok as [_ Hkeys]; by apply Hkeys in Hpr as [_ ?]).
    rewrite Hold by lia. rewrite Hcells1.
    by rewrite decide_True by (by apply list_elem_of_fmap_2).
Qed.

(** [compute] keeps the pool and the set of live projectors. *)
Lemma compute_pool_ok point h this h' this' :
  pool_ok h this →
  compute point h this = Ok (h', this') →
  pool_ok h' this'.
Proof.
  intros (Hok & Hnodup & Hlive) Hcompute.
  destruct (compute_inv _ _ _ _ _ Hcompute) as (Hrun & Hpool & _).
  destruct (for_each_Perform_lookup _ _ _ _ Hrun) as [Hbrk Hcells].
  unfold pool_ok. rewrite Hpool. split_and!; [|done|].
  - destruct Hok as [Hnz Hkeys]. split; [by rewrite Hbrk|].
    intros p pr Hp. rewrite Hcells in Hp. rewrite Hbrk.
    destruct (cells h !! p) as [pr0|] eqn:Hcell.
    + by apply (Hkeys p pr0).
    + by destruct (decide _).
  - pose proof (for_each_Perform_live_after _ _ _ _ Hrun) as Hlive'.
    rewrite Forall_forall in Hlive, Hlive' |- *. intros info Hin.
    split; [by apply Hlive | by apply Hlive'].
Qed.

(** Every state a client can reach is well formed. *)
Lemma reachable_pool_ok h this : reachable h this → pool_ok h this.
Proof.
  induction 1 as [|faces h this h' this' _ IH Hprepare|point h this h' this' _ IH Hcompute].
  - apply pool_ok_construct.
  - destruct (prepare_spec faces _ _ IH) as (h2 & this2 & Hrun & Hok & _).
    rewrite Hrun in Hprepare. by injection Hprepare as <- <-.
  - by eapply compute_pool_ok.
Qed.

End Ownership.

Section Accessors.
Context {K : GeomKernel}.
Implicit Types (h : Heap) (this : BRepPointOnFacesProjection).
Implicit Types (info : ProjectorInfo_t) (pr : Projector_t).

Lemma converged_bool pr :
  IsDone (extrema pr) && (0 <? NbPoints (extrema pr)) = true ↔ converged pr.
Proof. unfold converged. rewrite andb_true_iff, Z.ltb_lt. reflexivity. Qed.

Lemma compare_distance_converged pr :
  converged pr → compare_distance pr = LowerDistance (extrema pr).
Proof. intros Hc%converged_bool. unfold compare_distance. by rewrite Hc. Qed.

Lemma compare_distance_failed pr :
  ¬ converged pr → compare_distance pr = DBL_MAX.
Proof.
  rewrite <- converged_bool. intros Hc%not_true_is_false.
  unfold compare_distance. by rewrite Hc.
Qed.

Lemma isDone_null h this : (_solProjector this).1 = 0%N → isDone h this = Ok false.
Proof. intros Hnull. unfold isDone. by rewrite Hnull. Qed.

Lemma isDone_live h this pr :
  (_solProjector this).1 ≠ 0%N →
  cells h !! (_solProjector this).1 = Some pr →
  isDone h this = Ok (IsDone (extrema pr) && (0 <? NbPoints (extrema pr))).
Proof.
  intros Hnn Hpr. unfold isDone, heap_deref.
  destruct (N.eqb_spec (_solProjector this).1 0) as [|_]; [done|].
  by rewrite Hpr.
Qed.

Lemma isDone_dangling h this :
  (_solProjector this).1 ≠ 0%N →
  cells h !! (_solProjector this).1 = None →
  isDone h this = Err (InvalidPointer (_solProjector this).1).
Proof.
  intros Hnn Hpr. unfold isDone, heap_deref.
  destruct (N.eqb_spec (_solProjector this).1 0) as [|_]; [done|].
  by rewrite Hpr.
Qed.

Lemma isDone_true h this :
  isDone h this = Ok true ↔
  (_solProjector this).1 ≠ 0%N ∧ entry_converged h (_solProjector this).
Proof.
  unfold entry_converged. split.
  - intros Hdone.
    destruct (decide ((_solProjector this).1 = 0%N)) as [Hnull|Hnn].
    { by rewrite isDone_null in Hdone. }
    destruct (cells h !! (_solProjector this).1) as [pr|] eqn:Hpr.
    + rewrite (isDone_live _ _ pr) in Hdone by done.
      injection Hdone as Hc%converged_bool. eauto.
    + by rewrite isDone_dangling in Hdone.
  - intros (Hnn & pr & Hpr & Hc%converged_bool).
    by rewrite (isDone_live _ _ pr), Hc.
Qed.

Lemma entry_distance_converged h info pr :
  cells h !! info.1 = Some pr → converged pr →
  entry_distance h info = LowerDistance (extrema pr).
Proof.
  intros Hpr Hc. unfold entry_distance. rewrite Hpr.
  by apply compare_distance_converged.
Qed.

Lemma entry_distance_failed h info :
  ¬ entry_converged h info → entry_distance h info = DBL_MAX.
Proof.
  unfold entry_converged, entry_distance. intros Hnc.
  destruct (cells h !! info.1) as [pr|]; [|done].
  apply compare_distance_failed. eauto.
Qed.

Lemma accessors_done h this pr :
  isDone h this = Ok true →
  cells h !! (_solProjector this).1 = Some pr →
  solutionFace h this = Ok (_solProjector this).2 ∧
  solutionPoint h this = Ok (NearestPoint (extrema pr)) ∧
  solutionUV h this = Ok (LowerDistanceParameters (extrema pr)) ∧
  solutionNormal h this =
    Ok (normalToFaceAtUV (_solProjector this).2
          (LowerDistanceParameters (extrema pr)).1
          (LowerDistanceParameters (extrema pr)).2).
Proof.
  intros Hdone Hpr.
  unfold solutionFace, solutionPoint, solutionUV, solutionNormal, heap_deref.
  rewrite Hdone, Hpr. cbn [mbind Result_bind].
  by destruct (LowerDistanceParameters (extrema pr)).
Qed.

End Accessors.

Section Results.
Context {K : GeomKernel}.
Implicit Types (h : Heap) (this : BRepPointOnFacesProjection).
Implicit Types (info : ProjectorInfo_t) (pr : Projector_t) (point : gp_Pnt).

(** C1. When [isDone()] holds after [compute(point)], the stored projector
    is live, [solutionPoint()] is its nearest point, every projector of the
    soup holds the projection of the query point on its own surface, and the
    lower distance of the stored projector is at most the lower distance of
    the projector of every face of the soup that converged with a candidate:
    the selected entry attains the minimum of the per-face lower
    distances. *)
Theorem compute_global_minimum point h this h' this' :
  compute point h this = Ok (h', this') →
  isDone h' this' = Ok true →
  ∃ sol,
    cells h' !! (_solProjector this').1 = Some sol ∧
    solutionPoint h' this' = Ok (NearestPoint (extrema sol)) ∧
    ∀ info pr,
      info ∈ _projectors this' →
      cells h' !! info.1 = Some pr →
      extrema pr = Extrema_project point (surface pr) ∧
      (converged pr →
       (LowerDistance (extrema sol) <= LowerDistance (extrema pr))%Q).
Proof.
  intros Hcompute Hdone.
  destruct (compute_inv _ _ _ _ _ Hcompute) as (Hrun & Hpool & i & Hi & Hmin & _).
  pose proof Hdone as (Hnn & sol & Hsol & Hc)%isDone_true.
  exists sol. split_and!.
  - done.
  - by destruct (accessors_done _ _ _ Hdone Hsol) as (_ & ? & _).
  - intros info pr Hin Hpr. rewrite Hpool in Hin. split.
    + destruct (for_each_Perform_live _ _ _ _ _ Hrun Hin) as (pr0 & _ & Hpr0).
      rewrite Hpr in Hpr0. by injection Hpr0 as ->.
    + intros Hcpr.
      rewrite <- (entry_distance_converged h' (_solProjector this') sol) by done.
      rewrite <- (entry_distance_converged h' info pr) by done.
      by apply Hmin.
Qed.

(** What [compute] leaves on a well-formed state with a non-empty pool: it
    returns, the stored entry is an entry of the pool with a live,
    non-null projector, and [isDone()] tells whether that projector
    converged. *)
Lemma compute_selected point h this :
  pool_ok h this →
  _projectors this ≠ [] →
  ∃ h' this' sol,
    compute point h this = Ok (h', this') ∧
    _solProjector this' ∈ _projectors this' ∧
    cells h' !! (_solProjector this').1 = Some sol ∧
    isDone h' this' = Ok (IsDone (extrema sol) && (0 <? NbPoints (extrema sol))).
Proof.
  intros Hok Hne.
  destruct (compute_Ok point h this Hne (pool_ok_live _ _ Hok)) as (h' & this' & Hcompute).
  destruct (compute_inv _ _ _ _ _ Hcompute) as (_ & Hpool & i & Hi & _).
  destruct (compute_pool_ok _ _ _ _ _ Hok Hcompute) as (_ & _ & Hlive).
  assert (Hin : _solProjector this' ∈ _projectors this')
    by (rewrite Hpool; by eapply list_elem_of_lookup_2).
  rewrite Forall_forall in Hlive. destruct (Hlive _ Hin) as [Hnn [sol Hsol]].
  exists h', this', sol. split_and!; [done..|]. by apply isDone_live.
Qed.

(** C2, as the code has it.  On a well-formed state with a non-empty pool
    [compute(point)] returns and [isDone()] answers; if it answers true, the
    projector of some face converged with a candidate; and it answers true
    as soon as the projector of some face converged with a candidate at a
    lower distance strictly below [DBL_MAX]. *)
Theorem isDone_after_compute point h this :
  pool_ok h this →
  _projectors this ≠ [] →
  ∃ h' this' b,
    compute point h this = Ok (h', this') ∧
    isDone h' this' = Ok b ∧
    (b = true → ∃ info, info ∈ _projectors this' ∧ entry_converged h' info) ∧
    (∀ info pr,
       info ∈ _projectors this' →
       cells h' !! info.1 = Some pr →
       converged pr →
       (LowerDistance (extrema pr) < DBL_MAX)%Q →
       b = true).
Proof.
  intros Hok Hne.
  destruct (compute_selected point h this Hok Hne)
    as (h' & this' & sol & Hcompute & Hin & Hsol & Hdone).
  exists h', this', (IsDone (extrema sol) && (0 <? NbPoints (extrema sol))).
  split_and!; [done..| |].
  - intros Hc%converged_bool. exists (_solProjector this'). split; [done|].
    by exists sol.
  - intros info pr Hinfo Hpr Hc Hlt.
    destruct (compute_inv _ _ _ _ _ Hcompute) as (_ & Hpool & i & _ & Hmin & _).
    rewrite Hpool in Hinfo. apply Hmin in Hinfo.
    rewrite (entry_distance_converged _ _ _ Hpr Hc) in Hinfo.
    destruct (IsDone (extrema sol) && (0 <? NbPoints (extrema sol))) eqn:Hb; [done|].
    exfalso. apply (Qle_not_lt _ _ Hinfo).
    unfold entry_distance, compare_distance. by rewrite Hsol, Hb.
Qed.

(** C3, as the code has it.  On a well-formed state with a non-empty pool
    [compute(point)] returns and stores an entry of the pool.  An entry
    whose projector did not converge, or converged without a candidate, is
    compared by the distance [DBL_MAX]; such an entry is stored only when
    no projector of the pool converged with a candidate at a lower
    distance strictly below [DBL_MAX]; and when every entry of the pool
    failed, the stored entry is the first of the pool and [isDone()] is
    false. *)
Theorem failed_entries_in_selection point h this :
  pool_ok h this →
  _projectors this ≠ [] →
  ∃ h' this',
    compute point h this = Ok (h', this') ∧
    _solProjector this' ∈ _projectors this' ∧
    (∀ info, info ∈ _projectors this' → ¬ entry_converged h' info →
       entry_distance h' info = DBL_MAX) ∧
    (¬ entry_converged h' (_solProjector this') →
     ∀ info pr,
       info ∈ _projectors this' →
       cells h' !! info.1 = Some pr →
       converged pr →
       (DBL_MAX <= LowerDistance (extrema pr))%Q) ∧
    ((∀ info, info ∈ _projectors this' → ¬ entry_converged h' info) →
     _projectors this' !! 0%nat = Some (_solProjector this') ∧
     isDone h' this' = Ok false).
Proof.
  intros Hok Hne.
  destruct (compute_selected point h this Hok Hne)
    as (h' & this' & sol & Hcompute & Hin & Hsol & Hdone).
  destruct (compute_inv _ _ _ _ _ Hcompute) as (_ & Hpool & i & Hi & Hmin & Hfirst).
  exists h', this'. split_and!; [done..| | |].
  - intros info _. apply entry_distance_failed.
  - intros Hfailed info pr Hinfo Hpr Hc.
    rewrite <- (entry_distance_failed _ _ Hfailed).
    rewrite <- (entry_distance_converged _ _ _ Hpr Hc).
    apply Hmin. by rewrite <- Hpool.
  - intros Hall. split.
    + destruct i as [|i]; [by rewrite Hpool|]. exfalso.
      destruct (_projectors this) as [|info0 rest] eqn:Hps; [done|].
      assert (Hin0 : info0 ∈ _projectors this') by (rewrite Hpool; apply elem_of_cons; auto).
      assert (Hlt := Hfirst 0%nat info0 eq_refl ltac:(lia)).
      rewrite (entry_distance_failed _ _ (Hall _ Hin)) in Hlt.
      rewrite (entry_distance_failed _ _ (Hall _ Hin0)) in Hlt.
      by apply Qlt_irrefl in Hlt.
    + rewrite Hdone. f_equal. apply not_true_is_false.
      intros Hc%converged_bool. apply (Hall _ Hin). by exists sol.
Qed.


(** The two builds of [compute] return the same states. *)
Lemma compute_NDEBUG_Ok point h this s :
  compute_NDEBUG point h this = Ok s ↔ compute point h this = Ok s.
Proof.
  unfold compute, compute_NDEBUG.
  destruct (for_each_Perform point (_projectors this) h) as [h1|]; [|done].
  cbn [mbind Result_bind].
  destruct (min_element _ (_projectors this)) as [iResult|]; [|done].
  cbn [mbind Result_bind].
  destruct (Nat.eqb_spec iResult (length (_projectors this))) as [->|Hne]; [|done].
  by rewrite lookup_ge_None_2.
Qed.

(** C5. [compute(point)] on the object as constructed, whose pool is
    empty, does not return, over any store: [min_element] returns the end
    of the pool, so the assertion [always_a_minimum] fails, and in a build
    with [NDEBUG] the end of the pool is dereferenced. *)
Theorem compute_empty_pool_fails point h :
  _projectors construct = [] ∧
  min_element (λ a b : ProjectorInfo_t, projector_compare h a.1 b.1)
              (_projectors construct)
    = Ok (length (_projectors construct)) ∧
  compute point h construct = Err (AssertionFailed "always_a_minimum") ∧
  compute_NDEBUG point h construct = Err (InvalidIterator 0).
Proof. by split_and!. Qed.

(** C6. On a well-formed state whose pool is not empty, [min_element]
    returns an iterator other than the end of the pool, so the assertion
    of [compute(point)] holds: [compute] returns, and the entry it stores
    is an entry of the pool. *)
Theorem compute_nonempty_pool point h this :
  pool_ok h this →
  _projectors this ≠ [] →
  ∃ h' this',
    compute point h this = Ok (h', this') ∧
    _solProjector this' ∈ _projectors this.
Proof.
  intros Hok Hne.
  destruct (compute_Ok point h this Hne (pool_ok_live _ _ Hok)) as (h' & this' & Hcompute).
  exists h', this'. split; [done|].
  destruct (compute_inv _ _ _ _ _ Hcompute) as (_ & _ & i & Hi & _).
  by eapply list_elem_of_lookup_2.
Qed.

(** C8. [compute(point)] projects the point again on every entry of the
    pool: each projector keeps its surface and holds the projection of
    the point on it, whatever it held before.  Hence a [compute(point)]
    that follows any sequence of other queries on the same pool ends in
    the state the first [compute(point)] ended in, and so does a repeated
    [compute(point)]: the same store and the same stored entry, hence the
    same face, solution point and (u,v). *)
Theorem compute_deterministic point h this h1 this1 :
  compute point h this = Ok (h1, this1) →
  (∀ info, info ∈ _projectors this →
     ∃ pr, cells h !! info.1 = Some pr ∧
           cells h1 !! info.1 =
             Some {| surface := surface pr;
                     extrema := Extrema_project point (surface pr) |}) ∧
  compute point h1 this1 = Ok (h1, this1) ∧
  ∀ points hq thisq,
    compute_each points h this = Ok (hq, thisq) →
    compute point hq thisq = Ok (h1, this1).
Proof.
  intros Hcompute. split_and!.
  - destruct (compute_inv _ _ _ _ _ Hcompute) as (Hrun & _).
    intros info Hin. by apply (for_each_Perform_live point (_projectors this)).
  - by eapply compute_requery.
  - intros points. revert h this Hcompute.
    induction points as [|point' rest IH]; intros h this Hcompute hq thisq;
      cbn [compute_each].
    + by intros [= <- <-].
    + rewrite bind_Ok. intros ([h' this''] & Hq & Hrest).
      apply (IH h' this''); [|done]. by eapply compute_requery.
Qed.

(** C9. When [isDone()] is false, the four accessors return their
    defaults: the null face, the origin, (0,0) and the unit vector +Z. *)
Theorem accessors_not_done h this :
  isDone h this = Ok false →
  solutionFace h this = Ok TopoDS_Face_null ∧
  solutionPoint h this = Ok (0%Q, 0%Q, 0%Q) ∧
  solutionUV h this = Ok (0%Q, 0%Q) ∧
  solutionNormal h this = Ok (0%Q, 0%Q, 1%Q).
Proof.
  intros Hdone. unfold solutionFace, solutionPoint, solutionUV, solutionNormal.
  by rewrite Hdone.
Qed.

(** C10. On an object as constructed, over any store, the stored projector
    is the null pointer, [isDone()] is false (the pointer is tested, not
    followed) and the four accessors return their defaults. *)
Theorem construct_accessors h :
  (_solProjector construct).1 = 0%N ∧
  isDone h construct = Ok false ∧
  solutionFace h construct = Ok TopoDS_Face_null ∧
  solutionPoint h construct = Ok (0%Q, 0%Q, 0%Q) ∧
  solutionUV h construct = Ok (0%Q, 0%Q) ∧
  solutionNormal h construct = Ok (0%Q, 0%Q, 1%Q).
Proof. done. Qed.

End Results.


(** ** [prepare] after a query *)

Section Dangling.
Context {K : GeomKernel}.
Implicit Types (h : Heap) (this : BRepPointOnFacesProjection).

(** [prepare] deletes the projector [_solProjector] points to, and leaves
    the pointer in place: until the next [compute], [isDone()] follows a
    pointer to a deleted projector. *)
Lemma prepare_dangling_solution faces h this h' this' :
  pool_ok h this →
  _solProjector this ∈ _projectors this →
  prepare faces h this = Ok (h', this') →
  _solProjector this' = _solProjector this ∧
  cells h' !! (_solProjector this').1 = None ∧
  isDone h' this' = Err (InvalidPointer (_solProjector this).1).
Proof.
  intros Hok Hin Hprepare.
  destruct (prepare_spec faces h this Hok)
    as (h2 & this2 & Hrun & _ & _ & _ & Hdead & Hsol).
  rewrite Hrun in Hprepare. injection Hprepare as <- <-.
  rewrite Forall_forall in Hdead. specialize (Hdead _ Hin).
  destruct Hok as (_ & _ & Hlive). rewrite Forall_forall in Hlive.
  destruct (Hlive _ Hin) as [Hnn _].
  rewrite Hsol. split_and!; [done..|].
  rewrite <- Hsol. apply isDone_dangling; by rewrite Hsol.
Qed.

End Dangling.

(** C7. The run [prepare(one square); compute(query); prepare(another
    square)]: the second [prepare] returns, the pool holds the new face
    only, with a fresh projector, and the projector of the first pool is
    deleted; but [_solProjector] still holds its address, and [isDone()] and
    the accessors follow that pointer to the deleted projector. *)
Theorem prepare_leaves_dangling_solution :
  let s0 := Demo.prepared [Demo.PlaneZ 0] in
  let s1 := Demo.queried Demo.query [Demo.PlaneZ 0] in
  let s2 := Demo.reprepared [Demo.PlaneZ 0] [Demo.PlaneZ 10] in
  construct_prepare [Demo.PlaneZ 0] heap_empty = Ok s0 ∧
  compute Demo.query s0.1 s0.2 = Ok s1 ∧
  _solProjector s1.2 = (1%N, Demo.PlaneZ 0) ∧
  isDone s1.1 s1.2 = Ok true ∧
  prepare [Demo.PlaneZ 10] s1.1 s1.2 = Ok s2 ∧
  _projectors s2.2 = [(2%N, Demo.PlaneZ 10)] ∧
  _solProjector s2.2 = (1%N, Demo.PlaneZ 0) ∧
  cells s2.1 !! 1%N = None ∧
  isDone s2.1 s2.2 = Err (InvalidPointer 1) ∧
  solutionFace s2.1 s2.2 = Err (InvalidPointer 1) ∧
  solutionPoint s2.1 s2.2 = Err (InvalidPointer 1) ∧
  solutionUV s2.1 s2.2 = Err (InvalidPointer 1) ∧
  solutionNormal s2.1 s2.2 = Err (InvalidPointer 1).
Proof. vm_compute. by repeat split. Qed.

(** ** Instances on the demonstration kernel *)

Lemma compute_global_minimum_witness :
  let h := (Demo.prepared Demo.two_squares).1 in
  let this := (Demo.prepared Demo.two_squares).2 in
  let h' := (Demo.queried Demo.query Demo.two_squares).1 in
  let this' := (Demo.queried Demo.query Demo.two_squares).2 in
  compute Demo.query h this = Ok (h', this') ∧
  isDone h' this' = Ok true ∧
  ∃ sol,
    cells h' !! (_solProjector this').1 = Some sol ∧
    solutionPoint h' this' = Ok (NearestPoint (extrema sol)) ∧
    ∀ info pr,
      info ∈ _projectors this' →
      cells h' !! info.1 = Some pr →
      extrema pr = Extrema_project Demo.query (surface pr) ∧
      (converged pr →
       (LowerDistance (extrema sol) <= LowerDistance (extrema pr))%Q).
Proof.
  intros h this h' this'.
  assert (Hcompute : compute Demo.query h this = Ok (h', this')) by (vm_compute; reflexivity).
  assert (Hdone : isDone h' this' = Ok true) by (vm_compute; reflexivity).
  split; [exact Hcompute|]. split; [exact Hdone|].
  exact (compute_global_minimum Demo.query h this h' this' Hcompute Hdone).
Defined.

(** C2, counterexample: after [compute] on a pool of a face without
    geometry and a face that converged at distance [DBL_MAX], the first,
    failed entry is stored and [isDone()] is false, although the projector
    of a face converged with a candidate. *)
Lemma isDone_iff_converged_counterexample :
  let h := (Demo.prepared Demo.far_soup).1 in
  let this := (Demo.prepared Demo.far_soup).2 in
  let h' := (Demo.queried Demo.ground Demo.far_soup).1 in
  let this' := (Demo.queried Demo.ground Demo.far_soup).2 in
  pool_ok h this ∧
  _projectors this ≠ [] ∧
  compute Demo.ground h this = Ok (h', this') ∧
  _solProjector this' = (1%N, Demo.Missing) ∧
  isDone h' this' = Ok false ∧
  (∃ info pr, info ∈ _projectors this' ∧ cells h' !! info.1 = Some pr ∧ converged pr) ∧
  ¬ (isDone h' this' = Ok true ↔
     ∃ info pr, info ∈ _projectors this' ∧ cells h' !! info.1 = Some pr ∧ converged pr).
Proof.
  intros h this h' this'.
  assert (Hdone : isDone h' this' = Ok false) by (vm_compute; reflexivity).
  assert (Hconv : ∃ info pr,
            info ∈ _projectors this' ∧ cells h' !! info.1 = Some pr ∧ converged pr).
  { exists (2%N, Demo.PlaneZ DBL_MAX). eexists.
    split; [|split; [vm_compute; reflexivity|]].
    - vm_compute. apply elem_of_cons. right. apply elem_of_cons. by left.
    - vm_compute. split; reflexivity. }
  split_and!.
  - apply (bool_decide_unpack _). vm_compute. exact I.
  - vm_compute. discriminate.
  - vm_compute. reflexivity.
  - vm_compute. reflexivity.
  - exact Hdone.
  - exact Hconv.
  - intros [_ Hiff]. specialize (Hiff Hconv). rewrite Hdone in Hiff. discriminate Hiff.
Qed.

Lemma isDone_after_compute_witness :
  let h := (Demo.prepared Demo.two_squares).1 in
  let this := (Demo.prepared Demo.two_squares).2 in
  pool_ok h this ∧
  _projectors this ≠ [] ∧
  ∃ h' this' b,
    compute Demo.query h this = Ok (h', this') ∧
    isDone h' this' = Ok b ∧
    (b = true → ∃ info, info ∈ _projectors this' ∧ entry_converged h' info) ∧
    (∀ info pr,
       info ∈ _projectors this' →
       cells h' !! info.1 = Some pr →
       converged pr →
       (LowerDistance (extrema pr) < DBL_MAX)%Q →
       b = true).
Proof.
  intros h this.
  assert (Hok : pool_ok h this) by (apply (bool_decide_unpack _); vm_compute; exact I).
  assert (Hne : _projectors this ≠ []) by (vm_compute; discriminate).
  split; [exact Hok|]. split; [exact Hne|].
  exact (isDone_after_compute Demo.query h this Hok Hne).
Defined.

(** C3, counterexample: on the same pool the failed first entry is
    stored although the second entry converged with a candidate; the
    distance of the failed entry is [DBL_MAX], which the converged entry at
    distance [DBL_MAX] is not below. *)
Lemma failed_entry_selected_counterexample :
  let h := (Demo.prepared Demo.far_soup).1 in
  let this := (Demo.prepared Demo.far_soup).2 in
  let h' := (Demo.queried Demo.ground Demo.far_soup).1 in
  let this' := (Demo.queried Demo.ground Demo.far_soup).2 in
  pool_ok h this ∧
  compute Demo.ground h this = Ok (h', this') ∧
  _projectors this' = [(1%N, Demo.Missing); (2%N, Demo.PlaneZ DBL_MAX)] ∧
  _solProjector this' = (1%N, Demo.Missing) ∧
  ¬ entry_converged h' (1%N, Demo.Missing) ∧
  entry_converged h' (2%N, Demo.PlaneZ DBL_MAX) ∧
  entry_distance h' (1%N, Demo.Missing) = DBL_MAX ∧
  entry_distance h' (2%N, Demo.PlaneZ DBL_MAX) = DBL_MAX ∧
  projector_compare h' 2 1 = Ok false.
Proof.
  intros h this h' this'. split_and!.
  - apply (bool_decide_unpack _). vm_compute. exact I.
  - vm_compute. reflexivity.
  - vm_compute. reflexivity.
  - vm_compute. reflexivity.
  - intros (pr & Hpr & Hc & _). vm_compute in Hpr. injection Hpr as <-.
    vm_compute in Hc. discriminate Hc.
  - eexists. split; [vm_compute; reflexivity|]. by vm_compute.
  - vm_compute. reflexivity.
  - vm_compute. reflexivity.
  - vm_compute. reflexivity.
Qed.

Lemma failed_entries_in_selection_witness :
  let h := (Demo.prepared Demo.failing_soup).1 in
  let this := (Demo.prepared Demo.failing_soup).2 in
  pool_ok h this ∧
  _projectors this ≠ [] ∧
  ∃ h' this',
    compute Demo.query h this = Ok (h', this') ∧
    _solProjector this' ∈ _projectors this' ∧
    (∀ info, info ∈ _projectors this' → ¬ entry_converged h' info →
       entry_distance h' info = DBL_MAX) ∧
    (¬ entry_converged h' (_solProjector this') →
     ∀ info pr,
       info ∈ _projectors this' →
       cells h' !! info.1 = Some pr →
       converged pr →
       (DBL_MAX <= LowerDistance (extrema pr))%Q) ∧
    ((∀ info, info ∈ _projectors this' → ¬ entry_converged h' info) →
     _projectors this' !! 0%nat = Some (_solProjector this') ∧
     isDone h' this' = Ok false).
Proof.
  intros h this.
  assert (Hok : pool_ok h this) by (apply (bool_decide_unpack _); vm_compute; exact I).
  assert (Hne : _projectors this ≠ []) by (vm_compute; discriminate).
  split; [exact Hok|]. split; [exact Hne|].
  exact (failed_entries_in_selection Demo.query h this Hok Hne).
Defined.

Example demo_tie_selects_first :
  let '(h', this') := Demo.queried Demo.query Demo.tied_squares in
  entry_distance h' (1%N, Demo.PlaneZ 0) = 3%Q ∧
  entry_distance h' (2%N, Demo.PlaneZ 6) = 3%Q ∧
  solutionFace h' this' = Ok (Demo.PlaneZ 0).
Proof. vm_compute. by repeat split. Qed.


Lemma compute_nonempty_pool_witness :
  let h := (Demo.prepared Demo.two_squares).1 in
  let this := (Demo.prepared Demo.two_squares).2 in
  pool_ok h this ∧
  _projectors this ≠ [] ∧
  ∃ h' this',
    compute Demo.query h this = Ok (h', this') ∧
    _solProjector this' ∈ _projectors this.
Proof.
  intros h this.
  assert (Hok : pool_ok h this) by (apply (bool_decide_unpack _); vm_compute; exact I).
  assert (Hne : _projectors this ≠ []) by (vm_compute; discriminate).
  split; [exact Hok|]. split; [exact Hne|].
  exact (compute_nonempty_pool Demo.query h this Hok Hne).
Defined.

Lemma compute_deterministic_witness :
  let h := (Demo.prepared Demo.two_squares).1 in
  let this := (Demo.prepared Demo.two_squares).2 in
  let h1 := (Demo.queried Demo.query Demo.two_squares).1 in
  let this1 := (Demo.queried Demo.query Demo.two_squares).2 in
  compute Demo.query h this = Ok (h1, this1) ∧
  (∀ info, info ∈ _projectors this →
     ∃ pr, cells h !! info.1 = Some pr ∧
           cells h1 !! info.1 =
             Some {| surface := surface pr;
                     extrema := Extrema_project Demo.query (surface pr) |}) ∧
  compute Demo.query h1 this1 = Ok (h1, this1) ∧
  ∀ points hq thisq,
    compute_each points h this = Ok (hq, thisq) →
    compute Demo.query hq thisq = Ok (h1, this1).
Proof.
  intros h this h1 this1.
  assert (Hcompute : compute Demo.query h this = Ok (h1, this1)) by (vm_compute; reflexivity).
  split; [exact Hcompute|].
  exact (compute_deterministic Demo.query h this h1 this1 Hcompute).
Defined.

Example demo_requery :
  let '(h, this) := Demo.prepared Demo.two_squares in
  compute_each [(0%Q, 0%Q, 9%Q); (1%Q, 1%Q, 1%Q); Demo.query] h this
  = compute Demo.query h this.
Proof. vm_compute. reflexivity. Qed.

Lemma accessors_not_done_witness :
  let h := (Demo.queried Demo.query Demo.failing_soup).1 in
  let this := (Demo.queried Demo.query Demo.failing_soup).2 in
  isDone h this = Ok false ∧
  solutionFace h this = Ok TopoDS_Face_null ∧
  solutionPoint h this = Ok (0%Q, 0%Q, 0%Q) ∧
  solutionUV h this = Ok (0%Q, 0%Q) ∧
  solutionNormal h this = Ok (0%Q, 0%Q, 1%Q).
Proof.
  intros h this.
  assert (Hdone : isDone h this = Ok false) by (vm_compute; reflexivity).
  split; [exact Hdone|].
  exact (accessors_not_done h this Hdone).
Defined.

(** * Further properties of the class *)

Section Lifecycle.
Context {K : GeomKernel}.
Implicit Types (h : Heap) (this : BRepPointOnFacesProjection).
Implicit Types (ps : list ProjectorInfo_t) (info : ProjectorInfo_t).
Implicit Types (point : gp_Pnt) (pr : Projector_t) (p : N).

(** ** What [prepare] builds *)

Lemma allocate_projectors_keys faces h ps h' ps' :
  allocate_projectors faces h ps = (h', ps') →
  (∀ info, info ∈ ps → info ∈ ps') ∧
  (∀ p, is_Some (cells h' !! p) → is_Some (cells h !! p) ∨ p ∈ ps'.*1).
Proof.
  revert h ps. induction faces as [|iFace rest IH]; intros h ps;
    cbn [allocate_projectors].
  - intros [= <- <-]. split; [done | by left].
  - intros Hrun. destruct (IH _ _ Hrun) as [Hsub Hkeys]. split.
    + intros info Hin. apply Hsub, elem_of_app. by left.
    + intros p Hp. destruct (Hkeys p Hp) as [Hnew|Hin]; [|by right].
      cbn [heap_new snd cells] in Hnew.
      destruct (decide (p = brk h)) as [->|Hne].
      * right. apply (list_elem_of_fmap_2 fst) with (x := (brk h, iFace)).
        apply Hsub, elem_of_app. right. apply elem_of_cons. by left.
      * left. by rewrite lookup_insert_ne in Hnew.
Qed.

(** The cells of the store after [prepare]: the projectors of the previous
    pool are gone, the other cells below [brk] are as they were, and every
    address handed out is at or above the previous [brk]. *)
Lemma prepare_cells faces h this h' this' :
  pool_ok h this →
  prepare faces h this = Ok (h', this') →
  (brk h <= brk h')%N ∧
  (∀ p, (p < brk h)%N →
     cells h' !! p = if decide (p ∈ (_projectors this).*1) then None else cells h !! p) ∧
  (∀ info, info ∈ _projectors this' → (brk h <= info.1)%N) ∧
  (∀ p, is_Some (cells h' !! p) →
     (¬ (p ∈ (_projectors this).*1) ∧ is_Some (cells h !! p)) ∨
     p ∈ (_projectors this').*1).
Proof.
  intros (Hok & Hnodup & Hlive) Hprepare.
  destruct (destroy_projectors_spec _ h Hnodup Hlive) as (h1 & Hdestroy & Hbrk1 & Hcells1).
  assert (Hok1 : heap_ok h1).
  { destruct Hok as [Hbrk Hkeys]. split; [by rewrite Hbrk1|].
    intros p pr. rewrite Hcells1, Hbrk1. case_decide; [done|]. apply Hkeys. }
  unfold prepare, releaseMemory in Hprepare. rewrite Hdestroy in Hprepare.
  cbn [mbind Result_bind _projectors] in Hprepare.
  destruct (allocate_projectors (TopExp_Explorer faces) h1 []) as [h2 ps2] eqn:Halloc.
  injection Hprepare as <- <-. cbn [_projectors].
  destruct (allocate_projectors_spec _ _ _ _ _ Hok1 Halloc)
    as (new & -> & _ & _ & _ & Hbrk2 & Hnew & Hold).
  destruct (allocate_projectors_keys _ _ _ _ _ Halloc) as [_ Hkeys].
  cbn [app] in *. rewrite Hbrk1 in *. split_and!.
  - done.
  - intros p Hp. by rewrite Hold, Hcells1.
  - rewrite Forall_forall in Hnew. intros info Hin. by destruct (Hnew _ Hin).
  - intros p Hp. destruct (Hkeys p Hp) as [Hold1|Hin]; [left | by right].
    rewrite Hcells1 in Hold1.
    destruct (decide (p ∈ (_projectors this).*1)) as [|Hnin]; [by destruct Hold1 | done].
Qed.

(** X1. [prepare] on a well-formed state returns a well-formed state.  The
    new pool lists the faces of the shape in exploration order, each with a
    live projector of its own, initialised at the origin on the surface of
    its face; outside the new pool the store is the previous store without
    the projectors of the previous pool, which are deleted; [_solProjector]
    is not touched. *)
Theorem prepare_replaces_pool faces h this :
  pool_ok h this →
  ∃ h' this',
    prepare faces h this = Ok (h', this') ∧
    pool_ok h' this' ∧
    (_projectors this').*2 = TopExp_Explorer faces ∧
    (∀ info, info ∈ _projectors this' →
       cells h' !! info.1 =
         Some (Projector_Init origin3d (BRep_Tool_Surface info.2))) ∧
    (∀ p, ¬ (p ∈ (_projectors this').*1) →
       cells h' !! p =
         if decide (p ∈ (_projectors this).*1) then None else cells h !! p) ∧
    _solProjector this' = _solProjector this.
Proof.
  intros Hok.
  destruct (prepare_spec faces h this Hok)
    as (h' & this' & Hrun & Hok' & Hfaces & Hinit & _ & Hsol).
  destruct (prepare_cells _ _ _ _ _ Hok Hrun) as (_ & Hold & _ & Hkeys).
  exists h', this'. split_and!; [done..| | |done].
  - by rewrite Forall_forall in Hinit.
  - intros p Hnew. destruct (N.lt_ge_cases p (brk h)) as [Hlt|Hge]; [by apply Hold|].
    assert (Hfree : cells h !! p = None).
    { destruct Hok as ([_ Hlive] & _).
      destruct (cells h !! p) as [pr|] eqn:Hpr; [|done].
      apply Hlive in Hpr. cbn in Hpr. lia. }
    rewrite Hfree.
    assert (Hgone : cells h' !! p = None).
    { destruct (cells h' !! p) as [pr|] eqn:Hpr; [|done].
      destruct (Hkeys p) as [[_ Hwas]|Hin]; [by rewrite Hpr | | done].
      rewrite Hfree in Hwas. by destruct Hwas. }
    rewrite Hgone. by destruct (decide _).
Qed.

(** ** No projector is leaked *)

(** Every live projector of the store belongs to the pool. *)
Lemma reachable_owns h this p :
  reachable h this → is_Some (cells h !! p) → p ∈ (_projectors this).*1.
Proof.
  intros Hreach. revert p.
  induction Hreach as [|faces h this h' this' Hreach IH Hprepare
                        |point h this h' this' Hreach IH Hcompute]; intros p Hp.
  - cbn in Hp. rewrite lookup_empty in Hp. by destruct Hp.
  - destruct (prepare_cells _ _ _ _ _ (reachable_pool_ok _ _ Hreach) Hprepare)
      as (_ & _ & _ & Hkeys).
    destruct (Hkeys p Hp) as [[Hnin Hold]|Hin]; [|done].
    destruct Hnin. by apply IH.
  - destruct (compute_inv _ _ _ _ _ Hcompute) as (Hrun & -> & _).
    destruct (for_each_Perform_lookup _ _ _ _ Hrun) as [_ Hcells].
    rewrite Hcells in Hp. destruct (decide (p ∈ (_projectors this).*1)); [done|].
    by apply IH.
Qed.

(** X2. In every state a client can reach, the live projectors of the
    store are exactly the projectors of the pool, and the destructor
    returns and leaves the store empty. *)
Theorem destroy_leaves_no_projector h this :
  reachable h this →
  (∀ p, is_Some (cells h !! p) ↔ p ∈ (_projectors this).*1) ∧
  ∃ h', destroy h this = Ok h' ∧ cells h' = ∅.
Proof.
  intros Hreach. pose proof (reachable_pool_ok _ _ Hreach) as Hok. split.
  - intros p. split; [by apply reachable_owns|].
    intros (info & -> & Hin)%list_elem_of_fmap_1.
    pose proof (pool_ok_live _ _ Hok) as Hlive. rewrite Forall_forall in Hlive. auto.
  - destruct Hok as (_ & Hnodup & Hlive).
    destruct (destroy_projectors_spec _ h Hnodup Hlive) as (h' & Hrun & _ & Hcells).
    exists h'. unfold destroy, releaseMemory. rewrite Hrun. split; [done|].
    apply map_eq. intros p. rewrite Hcells, lookup_empty.
    destruct (decide (p ∈ (_projectors this).*1)) as [|Hnin]; [done|].
    destruct (cells h !! p) eqn:Hp; [|done].
    destruct Hnin. by apply (reachable_owns h this p Hreach).
Qed.

(** X3. [releaseMemory] on a well-formed state returns with an empty pool
    and keeps [_solProjector]; after it a second [releaseMemory] and the
    destructor return without touching the store: no projector is deleted
    twice. *)
Theorem releaseMemory_twice h this :
  pool_ok h this →
  ∃ h1 this1,
    releaseMemory h this = Ok (h1, this1) ∧
    _projectors this1 = [] ∧
    _solProjector this1 = _solProjector this ∧
    pool_ok h1 this1 ∧
    releaseMemory h1 this1 = Ok (h1, this1) ∧
    destroy h1 this1 = Ok h1.
Proof.
  intros (Hok & Hnodup & Hlive).
  destruct (destroy_projectors_spec _ h Hnodup Hlive) as (h1 & Hrun & Hbrk & Hcells).
  exists h1, {| _projectors := []; _solProjector := _solProjector this |}.
  unfold releaseMemory at 1. rewrite Hrun. split_and!; [done..| |done|done].
  split_and!; [|constructor|constructor].
  destruct Hok as [Hnz Hkeys]. split; [by rewrite Hbrk|].
  intros p pr. rewrite Hcells, Hbrk. case_decide; [done|]. apply Hkeys.
Qed.

End Lifecycle.

Section Queries.
Context {K : GeomKernel}.
Implicit Types (h : Heap) (this : BRepPointOnFacesProjection).
Implicit Types (ps : list ProjectorInfo_t) (info : ProjectorInfo_t).
Implicit Types (point : gp_Pnt) (pr : Projector_t) (p : N).

(** ** The result in terms of the faces *)

(** After [prepare] and [compute], every projector of the pool holds the
    projection of the point on the surface of its face. *)
Lemma prepare_compute_cells faces point h this h1 this1 h2 this2 info :
  pool_ok h this →
  prepare faces h this = Ok (h1, this1) →
  compute point h1 this1 = Ok (h2, this2) →
  info ∈ _projectors this1 →
  cells h2 !! info.1 = Some (Projector_Init point (BRep_Tool_Surface info.2)) ∧
  entry_distance h2 info = face_distance point info.2.
Proof.
  intros Hok Hprepare Hcompute Hin.
  destruct (prepare_spec faces h this Hok) as (h' & this' & Hrun & _ & _ & Hinit & _).
  rewrite Hrun in Hprepare. injection Hprepare as -> ->.
  rewrite Forall_forall in Hinit. specialize (Hinit _ Hin).
  destruct (compute_inv _ _ _ _ _ Hcompute) as (Hperform & _).
  destruct (for_each_Perform_live _ _ _ _ _ Hperform Hin) as (pr & Hpr & Hpr2).
  rewrite Hinit in Hpr. injection Hpr as <-.
  split; [exact Hpr2|]. unfold entry_distance, face_distance. by rewrite Hpr2.
Qed.

(** The stored entry is the first face of the shape, in exploration
    order, whose distance is the least. *)
Lemma prepare_compute_selection faces point h this h1 this1 h2 this2 :
  pool_ok h this →
  prepare faces h this = Ok (h1, this1) →
  compute point h1 this1 = Ok (h2, this2) →
  ∃ (i : nat) p face,
    _solProjector this2 = (p, face) ∧
    p ≠ 0%N ∧
    TopExp_Explorer faces !! i = Some face ∧
    cells h2 !! p = Some (Projector_Init point (BRep_Tool_Surface face)) ∧
    (∀ f, f ∈ TopExp_Explorer faces →
       (face_distance point face <= face_distance point f)%Q) ∧
    (∀ (j : nat) f, TopExp_Explorer faces !! j = Some f → (j < i)%nat →
       (face_distance point face < face_distance point f)%Q).
Proof.
  intros Hok Hprepare Hcompute.
  destruct (prepare_spec faces h this Hok) as (h' & this' & Hrun & Hok1 & Hfaces & _).
  pose proof Hprepare as Hprepare'. rewrite Hrun in Hprepare'.
  injection Hprepare' as -> ->.
  destruct (compute_inv _ _ _ _ _ Hcompute) as (_ & _ & i & Hi & Hmin & Hfirst).
  destruct (_solProjector this2) as [p face] eqn:Hsol.
  assert (Hin : (p, face) ∈ _projectors this1) by (by eapply list_elem_of_lookup_2).
  destruct (prepare_compute_cells _ _ _ _ _ _ _ _ _ Hok Hprepare Hcompute Hin)
    as [Hcell Hdist].
  cbn [fst snd] in Hcell, Hdist.
  exists i, p, face. split_and!.
  - done.
  - destruct Hok1 as (_ & _ & Hlive). rewrite Forall_forall in Hlive.
    by destruct (Hlive _ Hin).
  - rewrite <- Hfaces, list_lookup_fmap. apply fmap_Some. by exists (p, face).
  - done.
  - intros f. rewrite <- Hfaces. intros (info & -> & Hinfo)%list_elem_of_fmap_1.
    destruct (prepare_compute_cells _ _ _ _ _ _ _ _ _ Hok Hprepare Hcompute Hinfo)
      as [_ <-].
    rewrite <- Hdist. by apply Hmin.
  - intros j f Hj Hlt. rewrite <- Hfaces, list_lookup_fmap in Hj.
    apply fmap_Some in Hj as (info & Hj & ->).
    destruct (prepare_compute_cells _ _ _ _ _ _ _ _ info Hok Hprepare Hcompute)
      as [_ <-]; [by eapply list_elem_of_lookup_2|].
    rewrite <- Hdist. by apply (Hfirst j).
Qed.

(** X5. After [prepare(faces)] and [compute(point)], when [isDone()] is
    true, [solutionFace()] is a face of the shape; [solutionPoint()] and
    [solutionUV()] are the nearest point and the parameters of the
    projection of the point on the surface of that face, [solutionNormal()]
    is the normal of that face at these parameters; and the lower distance
    of that projection is at most the lower distance of the projection of
    the point on the surface of any face of the shape that converges with a
    candidate. *)
Theorem prepare_compute_accessors faces point h this h1 this1 h2 this2 :
  pool_ok h this →
  prepare faces h this = Ok (h1, this1) →
  compute point h1 this1 = Ok (h2, this2) →
  isDone h2 this2 = Ok true →
  ∃ face,
    face ∈ TopExp_Explorer faces ∧
    let e := Extrema_project point (BRep_Tool_Surface face) in
    solutionFace h2 this2 = Ok face ∧
    solutionPoint h2 this2 = Ok (NearestPoint e) ∧
    solutionUV h2 this2 = Ok (LowerDistanceParameters e) ∧
    solutionNormal h2 this2 =
      Ok (normalToFaceAtUV face (LowerDistanceParameters e).1
                                (LowerDistanceParameters e).2) ∧
    ∀ f, f ∈ TopExp_Explorer faces →
      let e' := Extrema_project point (BRep_Tool_Surface f) in
      IsDone e' = true → 0 < NbPoints e' →
      (LowerDistance e <= LowerDistance e')%Q.
Proof.
  intros Hok Hprepare Hcompute Hdone.
  destruct (prepare_compute_selection _ _ _ _ _ _ _ _ Hok Hprepare Hcompute)
    as (i & p & face & Hsol & Hnn & Hi & Hcell & Hmin & _).
  exists face. split; [by eapply list_elem_of_lookup_2|]. cbn zeta.
  assert (Hcell' : cells h2 !! (_solProjector this2).1
                   = Some (Projector_Init point (BRep_Tool_Surface face)))
    by (by rewrite Hsol).
  destruct (accessors_done _ _ _ Hdone Hcell') as (Hface & Hpoint & Huv & Hnormal).
  rewrite Hsol in Hface, Hnormal. split_and!; [done..|].
  intros f Hf Hd Hn. specialize (Hmin f Hf).
  unfold face_distance in Hmin.
  rewrite (compare_distance_converged (Projector_Init point (BRep_Tool_Surface f)))
    in Hmin by done.
  rewrite compare_distance_converged in Hmin; [done|].
  apply isDone_true in Hdone as (_ & pr & Hpr & Hc).
  rewrite Hcell' in Hpr. by injection Hpr as <-.
Qed.

(** X6. What [isDone()] and the four accessors return after
    [prepare(faces)] and [compute(point)] depends on the shape and the
    point only: two objects in any two well-formed states, whatever their
    earlier pools, queries and addresses, agree. *)
Theorem prepare_compute_history_independent faces point
    h this h1 this1 h2 this2 h' this' h1' this1' h2' this2' :
  pool_ok h this →
  prepare faces h this = Ok (h1, this1) →
  compute point h1 this1 = Ok (h2, this2) →
  pool_ok h' this' →
  prepare faces h' this' = Ok (h1', this1') →
  compute point h1' this1' = Ok (h2', this2') →
  isDone h2 this2 = isDone h2' this2' ∧
  solutionFace h2 this2 = solutionFace h2' this2' ∧
  solutionPoint h2 this2 = solutionPoint h2' this2' ∧
  solutionUV h2 this2 = solutionUV h2' this2' ∧
  solutionNormal h2 this2 = solutionNormal h2' this2'.
Proof.
  intros Hok Hprepare Hcompute Hok' Hprepare' Hcompute'.
  destruct (prepare_compute_selection _ _ _ _ _ _ _ _ Hok Hprepare Hcompute)
    as (i & p & face & Hsol & Hnn & Hi & Hcell & Hmin & Hfirst).
  destruct (prepare_compute_selection _ _ _ _ _ _ _ _ Hok' Hprepare' Hcompute')
    as (i' & p' & face' & Hsol' & Hnn' & Hi' & Hcell' & Hmin' & Hfirst').
  assert (Hin : face ∈ TopExp_Explorer faces) by (by eapply list_elem_of_lookup_2).
  assert (Hin' : face' ∈ TopExp_Explorer faces) by (by eapply list_elem_of_lookup_2).
  assert (i = i') as <-.
  { destruct (lt_eq_lt_dec i i') as [[Hlt|]|Hlt]; [exfalso|done|exfalso].
    - apply (Qle_not_lt _ _ (Hmin face' Hin')). by apply (Hfirst' i).
    - apply (Qle_not_lt _ _ (Hmin' face Hin)). by apply (Hfirst i'). }
  rewrite Hi in Hi'. injection Hi' as <-.
  assert (Hdone : ∀ h0 this0 p0,
            _solProjector this0 = (p0, face) → p0 ≠ 0%N →
            cells h0 !! p0 = Some (Projector_Init point (BRep_Tool_Surface face)) →
            isDone h0 this0
            = Ok (IsDone (Extrema_project point (BRep_Tool_Surface face))
                  && (0 <? NbPoints (Extrema_project point (BRep_Tool_Surface face))))).
  { intros h0 this0 p0 Hs Hn Hc.
    apply (isDone_live h0 this0 (Projector_Init point (BRep_Tool_Surface face)));
      by rewrite Hs. }
  pose proof (Hdone _ _ _ Hsol Hnn Hcell) as Hd.
  pose proof (Hdone _ _ _ Hsol' Hnn' Hcell') as Hd'.
  split; [by rewrite Hd, Hd'|].
  destruct (IsDone (Extrema_project point (BRep_Tool_Surface face))
            && (0 <? NbPoints (Extrema_project point (BRep_Tool_Surface face)))).
  - assert (Hc : cells h2 !! (_solProjector this2).1
                 = Some (Projector_Init point (BRep_Tool_Surface face)))
      by (by rewrite Hsol).
    assert (Hc' : cells h2' !! (_solProjector this2').1
                  = Some (Projector_Init point (BRep_Tool_Surface face)))
      by (by rewrite Hsol').
    destruct (accessors_done _ _ _ Hd Hc) as (-> & -> & -> & ->).
    destruct (accessors_done _ _ _ Hd' Hc') as (-> & -> & -> & ->).
    by rewrite Hsol, Hsol'.
  - unfold solutionFace, solutionPoint, solutionUV, solutionNormal.
    by rewrite Hd, Hd'.
Qed.

End Queries.

Section Safety.
Context {K : GeomKernel}.
Implicit Types (h : Heap) (this : BRepPointOnFacesProjection).
Implicit Types (ps : list ProjectorInfo_t) (info : ProjectorInfo_t).
Implicit Types (point : gp_Pnt) (pr : Projector_t) (p : N).

(** X7. A [compute] that returns has neither allocated nor deleted a
    projector: the pool, [brk] and the set of live addresses are as before,
    every projector is on the surface it was on, and the projectors that
    are not in the pool are untouched. *)
Theorem compute_frame point h this h' this' :
  compute point h this = Ok (h', this') →
  _projectors this' = _projectors this ∧
  brk h' = brk h ∧
  (∀ p, is_Some (cells h' !! p) ↔ is_Some (cells h !! p)) ∧
  (∀ p pr, cells h !! p = Some pr →
     ∃ pr', cells h' !! p = Some pr' ∧ surface pr' = surface pr) ∧
  (∀ p, ¬ (p ∈ (_projectors this).*1) → cells h' !! p = cells h !! p).
Proof.
  intros Hcompute.
  destruct (compute_inv _ _ _ _ _ Hcompute) as (Hrun & Hpool & _).
  destruct (for_each_Perform_lookup _ _ _ _ Hrun) as [Hbrk Hcells].
  split_and!; [done | done | | |].
  - intros p. rewrite Hcells. destruct (decide _); [|done].
    by rewrite fmap_is_Some.
  - intros p pr Hpr. rewrite Hcells, Hpr. destruct (decide _); eauto.
  - intros p Hnin. rewrite Hcells. by rewrite decide_False.
Qed.


(** X10. After a [compute] that returns on a well-formed state, [isDone()]
    and the four accessors return without a fault; when [isDone()] is
    true, [solutionFace()] is the face of an entry of the pool and
    [solutionNormal()] is the normal of that face at [solutionUV()]. *)
Theorem accessors_after_compute point h this h' this' :
  pool_ok h this →
  compute point h this = Ok (h', this') →
  ∃ b face pnt uv nrm,
    isDone h' this' = Ok b ∧
    solutionFace h' this' = Ok face ∧
    solutionPoint h' this' = Ok pnt ∧
    solutionUV h' this' = Ok uv ∧
    solutionNormal h' this' = Ok nrm ∧
    (b = true →
     face ∈ (_projectors this').*2 ∧
     nrm = normalToFaceAtUV face uv.1 uv.2).
Proof.
  intros Hok Hcompute.
  destruct (compute_inv _ _ _ _ _ Hcompute) as (_ & Hpool & i & Hi & _).
  apply list_elem_of_lookup_2 in Hi. rewrite <- Hpool in Hi.
  destruct (compute_pool_ok _ _ _ _ _ Hok Hcompute) as (_ & _ & Hlive).
  rewrite Forall_forall in Hlive. destruct (Hlive _ Hi) as [Hnn [pr Hpr]].
  pose proof (isDone_live _ _ _ Hnn Hpr) as Hdone.
  destruct (IsDone (extrema pr) && (0 <? NbPoints (extrema pr))).
  - destruct (accessors_done _ _ _ Hdone Hpr) as (Hf & Hp & Huv & Hn).
    eexists true, _, _, _, _. split_and!; [done..|]. intros _. split; [|done].
    by apply list_elem_of_fmap_2.
  - eexists false, _, _, _, _.
    unfold solutionFace, solutionPoint, solutionUV, solutionNormal.
    rewrite Hdone. by split_and!.
Qed.

End Safety.

(** * Properties of occ::IO *)

Section PartFiles.
Context {K : GeomKernel} {Qt : QtCore} {R : IO.Readers}.
Implicit Types (fs : IO.FileSystem) (filename : QString) (file : list Byte.byte).

(** ** Machine integers *)

Lemma little_endian_bound (digits : list Z) :
  Forall (λ d, 0 <= d < 256) digits →
  0 <= foldr (λ d acc, d + 256 * acc) 0 digits < 256 ^ Z.of_nat (length digits).
Proof.
  induction 1 as [|d digits Hd _ IH]; [done|].
  cbn [foldr length]. rewrite Nat2Z.inj_succ, Z.pow_succ_r by lia. lia.
Qed.

Lemma quint32_of_bytes_range order (bs : list Byte.byte) :
  (length bs <= 4)%nat →
  0 <= IO.quint32_of_bytes order bs < 2 ^ 32.
Proof.
  intros Hlen.
  assert (Hdigits : Forall (λ d, 0 <= d < 256) ((λ b, Z.of_N (Byte.to_N b)) <$> bs)).
  { apply Forall_fmap, Forall_forall. intros b _. cbn.
    pose proof (Byte.to_N_bounded b). lia. }
  assert (Hpow : ∀ digits : list Z, (length digits <= 4)%nat →
                   256 ^ Z.of_nat (length digits) <= 2 ^ 32).
  { intros digits Hle. change (2 ^ 32) with (256 ^ 4).
    apply Z.pow_le_mono_r; lia. }
  unfold IO.quint32_of_bytes. destruct order.
  - pose proof (little_endian_bound _ Hdigits) as Hb.
    specialize (Hpow ((λ b, Z.of_N (Byte.to_N b)) <$> bs)).
    rewrite length_fmap in Hpow, Hb. lia.
  - apply Forall_reverse in Hdigits.
    pose proof (little_endian_bound _ Hdigits) as Hb.
    specialize (Hpow (reverse ((λ b, Z.of_N (Byte.to_N b)) <$> bs))).
    rewrite length_reverse, length_fmap in Hpow, Hb. lia.
Qed.

Lemma read_facetsCount_take file :
  IO.read_facetsCount (take 2048 file)
  = IO.quint32_of_bytes Q_BYTE_ORDER (take 4 (drop 80 file)).
Proof.
  unfold IO.read_facetsCount. f_equal.
  rewrite !take_drop_commute, take_take. done.
Qed.

Lemma read_facetsCount_range file :
  0 <= IO.read_facetsCount (take 2048 file) < 2 ^ 32.
Proof.
  rewrite read_facetsCount_take. apply quint32_of_bytes_range.
  rewrite length_take. lia.
Qed.

Lemma wrap32_facets n :
  IO.wrap32 (IO.wrap32 ((4 * 12 + 2) * n) + (80 + 4)) = (50 * n + 84) mod 2 ^ 32.
Proof. unfold IO.wrap32. by rewrite Z.add_mod_idemp_l. Qed.

(** ** [partFormat] *)

(** X11. When the lower-cased suffix of the name is one of [step], [stp],
    [iges], [igs], [brep], [rle], [stla], [stlb], [partFormat] answers from
    the name alone: the answer is a known format and is the same on every
    file system, whether the file opens or not and whatever it holds. *)
Theorem partFormat_known_suffix filename :
  let suffix := QString_toLower (QFileInfo_suffix filename) in
  QString_eq suffix "step" || QString_eq suffix "stp" ||
  QString_eq suffix "iges" || QString_eq suffix "igs" ||
  QString_eq suffix "brep" || QString_eq suffix "rle" ||
  QString_eq suffix "stla" || QString_eq suffix "stlb" = true →
  ∀ fs fs',
    IO.partFormat fs filename = IO.partFormat fs' filename ∧
    IO.partFormat fs filename ≠ IO.UnknownFormat.
Proof.
  intros suffix Hknown fs fs'. unfold IO.partFormat. fold suffix.
  destruct (QString_eq suffix "step"); [by split|].
  destruct (QString_eq suffix "stp"); [by split|].
  destruct (QString_eq suffix "iges"); [by split|].
  destruct (QString_eq suffix "igs"); [by split|].
  destruct (QString_eq suffix "brep"); [by split|].
  destruct (QString_eq suffix "rle"); [by split|].
  destruct (QString_eq suffix "stla"); [by split|].
  destruct (QString_eq suffix "stlb"); [by split|].
  discriminate Hknown.
Qed.

(** What [partFormat] does once the suffix and the four text patterns
    have failed. *)
Lemma partFormat_binary fs filename file :
  let suffix := QString_toLower (QFileInfo_suffix filename) in
  let text := QString_of_QByteArray (take 2048 file) in
  QString_eq suffix "step" || QString_eq suffix "stp" ||
  QString_eq suffix "iges" || QString_eq suffix "igs" ||
  QString_eq suffix "brep" || QString_eq suffix "rle" ||
  QString_eq suffix "stla" || QString_eq suffix "stlb" = false →
  fs filename = Some file →
  QString_contains_QRegExp text "^.{72}S\s*[0-9]+\s*[\n\r\f]" ||
  QString_contains_QRegExp text "^\s*ISO-10303-21\s*;\s*HEADER" ||
  QString_contains_QRegExp text "^\s*DBRep_DrawableShape" ||
  QString_contains_QRegExp text "^\s*solid" = false →
  IO.partFormat fs filename =
    if (84 <=? Z.of_nat (length file)) &&
       ((50 * IO.quint32_of_bytes Q_BYTE_ORDER (take 4 (drop 80 file)) + 84) mod 2 ^ 32
        =? Z.of_nat (length file))
    then IO.BinaryStlFormat else IO.UnknownFormat.
Proof.
  intros suffix text Hsuffix Hfile Htext. unfold IO.partFormat.
  fold suffix. rewrite Hfile. fold text.
  repeat (apply orb_false_elim in Hsuffix as [Hsuffix ?]).
  repeat (apply orb_false_elim in Htext as [Htext ?]).
  repeat match goal with H : _ = false |- _ => rewrite H; clear H end.
  cbn [orb]. rewrite wrap32_facets, read_facetsCount_take.
  change (80 + 4) with 84. rewrite length_take.
  destruct (Z.leb_spec 84 (Z.of_nat (length file))) as [Hle|Hlt].
  - rewrite (proj2 (Z.leb_le _ _)) by lia. done.
  - rewrite (proj2 (Z.leb_gt _ _)) by lia. done.
Qed.

(** X12. For a name without a known suffix and an opened file whose
    beginning matches none of the four text patterns, [partFormat] answers
    [BinaryStlFormat] or [UnknownFormat]; it answers [BinaryStlFormat]
    exactly when the file has at least 84 bytes and its size equals
    [50 * facetsCount + 84] modulo 2^32, [facetsCount] being the [quint32]
    at offset 80.  Hence a file of 2^32 bytes or more is never recognised
    from its contents. *)
Theorem partFormat_binary_stl fs filename file :
  let suffix := QString_toLower (QFileInfo_suffix filename) in
  let text := QString_of_QByteArray (take 2048 file) in
  let facetsCount := IO.quint32_of_bytes Q_BYTE_ORDER (take 4 (drop 80 file)) in
  QString_eq suffix "step" || QString_eq suffix "stp" ||
  QString_eq suffix "iges" || QString_eq suffix "igs" ||
  QString_eq suffix "brep" || QString_eq suffix "rle" ||
  QString_eq suffix "stla" || QString_eq suffix "stlb" = false →
  fs filename = Some file →
  QString_contains_QRegExp text "^.{72}S\s*[0-9]+\s*[\n\r\f]" ||
  QString_contains_QRegExp text "^\s*ISO-10303-21\s*;\s*HEADER" ||
  QString_contains_QRegExp text "^\s*DBRep_DrawableShape" ||
  QString_contains_QRegExp text "^\s*solid" = false →
  (IO.partFormat fs filename = IO.BinaryStlFormat ∨
   IO.partFormat fs filename = IO.UnknownFormat) ∧
  (IO.partFormat fs filename = IO.BinaryStlFormat ↔
   84 <= Z.of_nat (length file) ∧
   (50 * facetsCount + 84) mod 2 ^ 32 = Z.of_nat (length file)) ∧
  (IO.partFormat fs filename = IO.BinaryStlFormat →
   Z.of_nat (length file) < 2 ^ 32).
Proof.
  intros suffix text facetsCount Hsuffix Hfile Htext.
  rewrite (partFormat_binary fs filename file Hsuffix Hfile Htext).
  fold facetsCount.
  destruct (Z.leb_spec 84 (Z.of_nat (length file))) as [Hle|Hlt];
    destruct (Z.eqb_spec ((50 * facetsCount + 84) mod 2 ^ 32) (Z.of_nat (length file)))
      as [Heq|Hne]; cbn [andb].
  - split_and!; [by left | done |]. intros _. rewrite <- Heq.
    by apply Z.mod_pos_bound.
  - split_and!; [by right | split; [done | tauto] | done].
  - split_and!; [by right | split; [done | lia] | done].
  - split_and!; [by right | split; [done | lia] | done].
Qed.

(** X13. A binary STL file is recognised from its contents: for a name
    without a known suffix, a file of [84 + 50 * n] bytes, below 2^32,
    whose [quint32] at offset 80 is [n], and whose beginning matches none of
    the four text patterns, [partFormat] answers [BinaryStlFormat]. *)
Theorem partFormat_accepts_binary_stl fs filename file n :
  let suffix := QString_toLower (QFileInfo_suffix filename) in
  let text := QString_of_QByteArray (take 2048 file) in
  QString_eq suffix "step" || QString_eq suffix "stp" ||
  QString_eq suffix "iges" || QString_eq suffix "igs" ||
  QString_eq suffix "brep" || QString_eq suffix "rle" ||
  QString_eq suffix "stla" || QString_eq suffix "stlb" = false →
  fs filename = Some file →
  QString_contains_QRegExp text "^.{72}S\s*[0-9]+\s*[\n\r\f]" ||
  QString_contains_QRegExp text "^\s*ISO-10303-21\s*;\s*HEADER" ||
  QString_contains_QRegExp text "^\s*DBRep_DrawableShape" ||
  QString_contains_QRegExp text "^\s*solid" = false →
  IO.quint32_of_bytes Q_BYTE_ORDER (take 4 (drop 80 file)) = n →
  Z.of_nat (length file) = 84 + 50 * n →
  84 + 50 * n < 2 ^ 32 →
  IO.partFormat fs filename = IO.BinaryStlFormat.
Proof.
  intros suffix text Hsuffix Hfile Htext Hcount Hsize Hsmall.
  rewrite (partFormat_binary fs filename file Hsuffix Hfile Htext), Hcount.
  assert (Hn : 0 <= n).
  { rewrite <- Hcount. apply quint32_of_bytes_range. rewrite length_take. lia. }
  rewrite Z.mod_small by lia.
  rewrite (proj2 (Z.leb_le _ _)) by lia.
  rewrite (proj2 (Z.eqb_eq _ _)) by lia. done.
Qed.

(** ** [loadFile] and [loadPartFile] *)

Lemma loadFile_shape reader fs filename indicator :
  (IO.loadFile reader fs filename indicator).1 =
    if decide (IO.ReadFile reader fs filename = IFSelect_RetDone)
    then IO.OneShape reader fs filename
    else IO.TopoDS_Shape_null.
Proof.
  unfold IO.loadFile.
  destruct (decide (IO.ReadFile reader fs filename = IFSelect_RetDone)), indicator; done.
Qed.

(** X14. [loadFile]: the scopes it opens on the indicator are closed in
    turn, none being closed before it is opened, and the map reader is left
    without an indicator; a null indicator is sent nothing; and the shape
    is the null shape unless [ReadFile] returned [IFSelect_RetDone], in
    which case it is the shape of the reader. *)
Theorem loadFile_progress reader fs filename indicator :
  IO.scope_depth (IO.loadFile reader fs filename indicator).2 0 = Some 0%nat ∧
  IO.final_progress (IO.loadFile reader fs filename indicator).2 false = false ∧
  (IO.loadFile reader fs filename false).2 = [] ∧
  (IO.loadFile reader fs filename indicator).1 =
    if decide (IO.ReadFile reader fs filename = IFSelect_RetDone)
    then IO.OneShape reader fs filename
    else IO.TopoDS_Shape_null.
Proof.
  unfold IO.loadFile.
  destruct (decide (IO.ReadFile reader fs filename = IFSelect_RetDone)), indicator; done.
Qed.

(** X15. A shape other than the null shape comes out of [loadPartFile]
    only for a STEP or IGES file that [ReadFile] read with
    [IFSelect_RetDone], or from [BRepTools::Read] on a BREP file: a file of
    another format, the STL formats among them, and a STEP or IGES file
    that cannot be read give the null shape. *)
Theorem loadPartFile_not_null indicator fs filename :
  IO.loadPartFile indicator fs filename ≠ IO.TopoDS_Shape_null ↔
  (IO.partFormat fs filename = IO.StepFormat ∧
   IO.ReadFile STEPControl_Reader fs filename = IFSelect_RetDone ∧
   IO.OneShape STEPControl_Reader fs filename ≠ IO.TopoDS_Shape_null) ∨
  (IO.partFormat fs filename = IO.IgesFormat ∧
   IO.ReadFile IGESControl_Reader fs filename = IFSelect_RetDone ∧
   IO.OneShape IGESControl_Reader fs filename ≠ IO.TopoDS_Shape_null) ∨
  (IO.partFormat fs filename = IO.OccBRepFormat ∧
   IO.BRepTools_Read IO.TopoDS_Shape_null fs filename ≠ IO.TopoDS_Shape_null).
Proof.
  unfold IO.loadPartFile, IO.loadStepFile, IO.loadIgesFile, IO.loadBrepFile.
  rewrite !loadFile_shape.
  destruct (IO.partFormat fs filename);
    repeat match goal with |- context [decide ?P] => destruct (decide P) end;
    intuition congruence.
Qed.

End PartFiles.

(** ** Instances on the demonstration kernels *)

Lemma demo_reachable_queried :
  reachable (Demo.queried Demo.query Demo.two_squares).1
            (Demo.queried Demo.query Demo.two_squares).2.
Proof.
  eapply (reachable_compute (K := Demo.kernel) Demo.query (Demo.prepared Demo.two_squares).1
            (Demo.prepared Demo.two_squares).2).
  - eapply (reachable_prepare (K := Demo.kernel) Demo.two_squares); [apply reachable_construct|].
    vm_compute. reflexivity.
  - vm_compute. reflexivity.
Qed.

Lemma prepare_replaces_pool_witness :
  let h := (Demo.queried Demo.query Demo.two_squares).1 in
  let this := (Demo.queried Demo.query Demo.two_squares).2 in
  pool_ok h this ∧
  ∃ h' this',
    prepare Demo.tied_squares h this = Ok (h', this') ∧
    pool_ok h' this' ∧
    (_projectors this').*2 = TopExp_Explorer Demo.tied_squares ∧
    (∀ info, info ∈ _projectors this' →
       cells h' !! info.1 =
         Some (Projector_Init origin3d (BRep_Tool_Surface info.2))) ∧
    (∀ p, ¬ (p ∈ (_projectors this').*1) →
       cells h' !! p =
         if decide (p ∈ (_projectors this).*1) then None else cells h !! p) ∧
    _solProjector this' = _solProjector this.
Proof.
  intros h this.
  assert (Hok : pool_ok h this) by (apply (bool_decide_unpack _); vm_compute; exact I).
  split; [exact Hok|].
  exact (prepare_replaces_pool (K := Demo.kernel) Demo.tied_squares h this Hok).
Defined.

Lemma destroy_leaves_no_projector_witness :
  let h := (Demo.queried Demo.query Demo.two_squares).1 in
  let this := (Demo.queried Demo.query Demo.two_squares).2 in
  reachable h this ∧
  (∀ p, is_Some (cells h !! p) ↔ p ∈ (_projectors this).*1) ∧
  ∃ h', destroy h this = Ok h' ∧ cells h' = ∅.
Proof.
  intros h this. split; [exact demo_reachable_queried|].
  exact (destroy_leaves_no_projector h this demo_reachable_queried).
Defined.

Lemma releaseMemory_twice_witness :
  let h := (Demo.prepared Demo.two_squares).1 in
  let this := (Demo.prepared Demo.two_squares).2 in
  pool_ok h this ∧
  ∃ h1 this1,
    releaseMemory h this = Ok (h1, this1) ∧
    _projectors this1 = [] ∧
    _solProjector this1 = _solProjector this ∧
    pool_ok h1 this1 ∧
    releaseMemory h1 this1 = Ok (h1, this1) ∧
    destroy h1 this1 = Ok h1.
Proof.
  intros h this.
  assert (Hok : pool_ok h this) by (apply (bool_decide_unpack _); vm_compute; exact I).
  split; [exact Hok|].
  exact (releaseMemory_twice h this Hok).
Defined.

Lemma prepare_compute_accessors_witness :
  let h := (Demo.queried Demo.query [Demo.PlaneZ 0]).1 in
  let this := (Demo.queried Demo.query [Demo.PlaneZ 0]).2 in
  let h1 := (DemoRuns.prepared_again Demo.two_squares).1 in
  let this1 := (DemoRuns.prepared_again Demo.two_squares).2 in
  let h2 := (DemoRuns.queried_again Demo.query Demo.two_squares).1 in
  let this2 := (DemoRuns.queried_again Demo.query Demo.two_squares).2 in
  pool_ok h this ∧
  prepare Demo.two_squares h this = Ok (h1, this1) ∧
  compute Demo.query h1 this1 = Ok (h2, this2) ∧
  isDone h2 this2 = Ok true ∧
  ∃ face,
    face ∈ TopExp_Explorer Demo.two_squares ∧
    let e := Extrema_project Demo.query (BRep_Tool_Surface face) in
    solutionFace h2 this2 = Ok face ∧
    solutionPoint h2 this2 = Ok (NearestPoint e) ∧
    solutionUV h2 this2 = Ok (LowerDistanceParameters e) ∧
    solutionNormal h2 this2 =
      Ok (normalToFaceAtUV face (LowerDistanceParameters e).1
                                (LowerDistanceParameters e).2) ∧
    ∀ f, f ∈ TopExp_Explorer Demo.two_squares →
      let e' := Extrema_project Demo.query (BRep_Tool_Surface f) in
      IsDone e' = true → 0 < NbPoints e' →
      (LowerDistance e <= LowerDistance e')%Q.
Proof.
  intros h this h1 this1 h2 this2.
  assert (Hok : pool_ok h this) by (apply (bool_decide_unpack _); vm_compute; exact I).
  assert (Hprepare : prepare Demo.two_squares h this = Ok (h1, this1))
    by (vm_compute; reflexivity).
  assert (Hcompute : compute Demo.query h1 this1 = Ok (h2, this2))
    by (vm_compute; reflexivity).
  assert (Hdone : isDone h2 this2 = Ok true) by (vm_compute; reflexivity).
  split; [exact Hok|]. split; [exact Hprepare|]. split; [exact Hcompute|].
  split; [exact Hdone|].
  exact (prepare_compute_accessors (K := Demo.kernel) Demo.two_squares Demo.query
           h this h1 this1 h2 this2 Hok Hprepare Hcompute Hdone).
Defined.

Lemma prepare_compute_history_independent_witness :
  let h := (Demo.queried Demo.query [Demo.PlaneZ 0]).1 in
  let this := (Demo.queried Demo.query [Demo.PlaneZ 0]).2 in
  let h1 := (DemoRuns.prepared_again Demo.two_squares).1 in
  let this1 := (DemoRuns.prepared_again Demo.two_squares).2 in
  let h2 := (DemoRuns.queried_again Demo.query Demo.two_squares).1 in
  let this2 := (DemoRuns.queried_again Demo.query Demo.two_squares).2 in
  let h1' := (Demo.prepared Demo.two_squares).1 in
  let this1' := (Demo.prepared Demo.two_squares).2 in
  let h2' := (Demo.queried Demo.query Demo.two_squares).1 in
  let this2' := (Demo.queried Demo.query Demo.two_squares).2 in
  pool_ok h this ∧
  prepare Demo.two_squares h this = Ok (h1, this1) ∧
  compute Demo.query h1 this1 = Ok (h2, this2) ∧
  pool_ok heap_empty construct ∧
  prepare Demo.two_squares heap_empty construct = Ok (h1', this1') ∧
  compute Demo.query h1' this1' = Ok (h2', this2') ∧
  isDone h2 this2 = isDone h2' this2' ∧
  solutionFace h2 this2 = solutionFace h2' this2' ∧
  solutionPoint h2 this2 = solutionPoint h2' this2' ∧
  solutionUV h2 this2 = solutionUV h2' this2' ∧
  solutionNormal h2 this2 = solutionNormal h2' this2'.
Proof.
  intros h this h1 this1 h2 this2 h1' this1' h2' this2'.
  assert (Hok : pool_ok h this) by (apply (bool_decide_unpack _); vm_compute; exact I).
  assert (Hprepare : prepare Demo.two_squares h this = Ok (h1, this1))
    by (vm_compute; reflexivity).
  assert (Hcompute : compute Demo.query h1 this1 = Ok (h2, this2))
    by (vm_compute; reflexivity).
  assert (Hok' : pool_ok heap_empty (construct (K := Demo.kernel)))
    by (apply (bool_decide_unpack _); vm_compute; exact I).
  assert (Hprepare' : prepare Demo.two_squares heap_empty construct = Ok (h1', this1'))
    by (vm_compute; reflexivity).
  assert (Hcompute' : compute Demo.query h1' this1' = Ok (h2', this2'))
    by (vm_compute; reflexivity).
  split; [exact Hok|]. split; [exact Hprepare|]. split; [exact Hcompute|].
  split; [exact Hok'|]. split; [exact Hprepare'|]. split; [exact Hcompute'|].
  exact (prepare_compute_history_independent (K := Demo.kernel) Demo.two_squares Demo.query
           h this h1 this1 h2 this2 heap_empty construct h1' this1' h2' this2'
           Hok Hprepare Hcompute Hok' Hprepare' Hcompute').
Defined.

Lemma compute_frame_witness :
  let h := (Demo.prepared Demo.two_squares).1 in
  let this := (Demo.prepared Demo.two_squares).2 in
  let h' := (Demo.queried Demo.query Demo.two_squares).1 in
  let this' := (Demo.queried Demo.query Demo.two_squares).2 in
  compute Demo.query h this = Ok (h', this') ∧
  _projectors this' = _projectors this ∧
  brk h' = brk h ∧
  (∀ p, is_Some (cells h' !! p) ↔ is_Some (cells h !! p)) ∧
  (∀ p pr, cells h !! p = Some pr →
     ∃ pr', cells h' !! p = Some pr' ∧ surface pr' = surface pr) ∧
  (∀ p, ¬ (p ∈ (_projectors this).*1) → cells h' !! p = cells h !! p).
Proof.
  intros h this h' this'.
  assert (Hcompute : compute Demo.query h this = Ok (h', this')) by (vm_compute; reflexivity).
  split; [exact Hcompute|].
  exact (compute_frame Demo.query h this h' this' Hcompute).
Defined.


Lemma accessors_after_compute_witness :
  let h := (Demo.prepared Demo.two_squares).1 in
  let this := (Demo.prepared Demo.two_squares).2 in
  let h' := (Demo.queried Demo.query Demo.two_squares).1 in
  let this' := (Demo.queried Demo.query Demo.two_squares).2 in
  pool_ok h this ∧
  compute Demo.query h this = Ok (h', this') ∧
  ∃ b face pnt uv nrm,
    isDone h' this' = Ok b ∧
    solutionFace h' this' = Ok face ∧
    solutionPoint h' this' = Ok pnt ∧
    solutionUV h' this' = Ok uv ∧
    solutionNormal h' this' = Ok nrm ∧
    (b = true →
     face ∈ (_projectors this').*2 ∧
     nrm = normalToFaceAtUV face uv.1 uv.2).
Proof.
  intros h this h' this'.
  assert (Hok : pool_ok h this) by (apply (bool_decide_unpack _); vm_compute; exact I).
  assert (Hcompute : compute Demo.query h this = Ok (h', this')) by (vm_compute; reflexivity).
  split; [exact Hok|]. split; [exact Hcompute|].
  exact (accessors_after_compute Demo.query h this h' this' Hok Hcompute).
Defined.

(** An upper-case suffix is recognised, on a file system without files. *)
Example demo_partFormat_suffix :
  IO.partFormat DemoIO.no_file "models/gear.STP" = IO.StepFormat ∧
  IO.partFormat DemoIO.files "mesh.stla" = IO.AsciiStlFormat ∧
  IO.loadPartFile false DemoIO.files "mesh.stla" = [].
Proof. vm_compute. by repeat split. Qed.

(** A file without suffix is recognised as IGES from its first line. *)
Example demo_partFormat_iges :
  IO.partFormat DemoIO.files "models/plate" = IO.IgesFormat.
Proof. vm_compute. reflexivity. Qed.

(** A file of 88 bytes whose count field is 85899346 passes for a binary
    STL file: 50 * 85899346 + 84 is 88 modulo 2^32. *)
Example demo_partFormat_wraps :
  length DemoIO.wrapping_stl = 88%nat ∧
  IO.read_facetsCount DemoIO.wrapping_stl = 85899346 ∧
  IO.partFormat DemoIO.files "models/odd.bin" = IO.BinaryStlFormat.
Proof. vm_compute. by repeat split. Qed.

Lemma partFormat_known_suffix_witness :
  let suffix := QString_toLower (QFileInfo_suffix "models/gear.STP"%string) in
  (QString_eq suffix "step" || QString_eq suffix "stp" ||
   QString_eq suffix "iges" || QString_eq suffix "igs" ||
   QString_eq suffix "brep" || QString_eq suffix "rle" ||
   QString_eq suffix "stla" || QString_eq suffix "stlb" = true) ∧
  ∀ fs fs',
    IO.partFormat fs "models/gear.STP"%string = IO.partFormat fs' "models/gear.STP"%string ∧
    IO.partFormat fs "models/gear.STP"%string ≠ IO.UnknownFormat.
Proof.
  intros suffix.
  assert (Hknown : QString_eq suffix "step" || QString_eq suffix "stp" ||
                   QString_eq suffix "iges" || QString_eq suffix "igs" ||
                   QString_eq suffix "brep" || QString_eq suffix "rle" ||
                   QString_eq suffix "stla" || QString_eq suffix "stlb" = true)
    by (vm_compute; reflexivity).
  split; [exact Hknown|].
  exact (partFormat_known_suffix (Qt := DemoIO.qt) "models/gear.STP"%string Hknown).
Defined.

Lemma partFormat_binary_stl_witness :
  let filename : QString := "models/odd.bin"%string in
  let file := DemoIO.wrapping_stl in
  let suffix := QString_toLower (QFileInfo_suffix filename) in
  let text := QString_of_QByteArray (take 2048 file) in
  let facetsCount := IO.quint32_of_bytes Q_BYTE_ORDER (take 4 (drop 80 file)) in
  (QString_eq suffix "step" || QString_eq suffix "stp" ||
   QString_eq suffix "iges" || QString_eq suffix "igs" ||
   QString_eq suffix "brep" || QString_eq suffix "rle" ||
   QString_eq suffix "stla" || QString_eq suffix "stlb" = false) ∧
  DemoIO.files filename = Some file ∧
  (QString_contains_QRegExp text "^.{72}S\s*[0-9]+\s*[\n\r\f]" ||
   QString_contains_QRegExp text "^\s*ISO-10303-21\s*;\s*HEADER" ||
   QString_contains_QRegExp text "^\s*DBRep_DrawableShape" ||
   QString_contains_QRegExp text "^\s*solid" = false) ∧
  (IO.partFormat DemoIO.files filename = IO.BinaryStlFormat ∨
   IO.partFormat DemoIO.files filename = IO.UnknownFormat) ∧
  (IO.partFormat DemoIO.files filename = IO.BinaryStlFormat ↔
   84 <= Z.of_nat (length file) ∧
   (50 * facetsCount + 84) mod 2 ^ 32 = Z.of_nat (length file)) ∧
  (IO.partFormat DemoIO.files filename = IO.BinaryStlFormat →
   Z.of_nat (length file) < 2 ^ 32).
Proof.
  intros filename file suffix text facetsCount.
  assert (Hsuffix : QString_eq suffix "step" || QString_eq suffix "stp" ||
                    QString_eq suffix "iges" || QString_eq suffix "igs" ||
                    QString_eq suffix "brep" || QString_eq suffix "rle" ||
                    QString_eq suffix "stla" || QString_eq suffix "stlb" = false)
    by (vm_compute; reflexivity).
  assert (Hfile : DemoIO.files filename = Some file) by (vm_compute; reflexivity).
  assert (Htext : QString_contains_QRegExp text "^.{72}S\s*[0-9]+\s*[\n\r\f]" ||
                  QString_contains_QRegExp text "^\s*ISO-10303-21\s*;\s*HEADER" ||
                  QString_contains_QRegExp text "^\s*DBRep_DrawableShape" ||
                  QString_contains_QRegExp text "^\s*solid" = false)
    by (vm_compute; reflexivity).
  split; [exact Hsuffix|]. split; [exact Hfile|]. split; [exact Htext|].
  exact (partFormat_binary_stl (Qt := DemoIO.qt) DemoIO.files filename file
           Hsuffix Hfile Htext).
Defined.

Lemma partFormat_accepts_binary_stl_witness :
  let filename : QString := "models/cube.bin"%string in
  let file := DemoIO.one_facet_stl in
  let suffix := QString_toLower (QFileInfo_suffix filename) in
  let text := QString_of_QByteArray (take 2048 file) in
  (QString_eq suffix "step" || QString_eq suffix "stp" ||
   QString_eq suffix "iges" || QString_eq suffix "igs" ||
   QString_eq suffix "brep" || QString_eq suffix "rle" ||
   QString_eq suffix "stla" || QString_eq suffix "stlb" = false) ∧
  DemoIO.files filename = Some file ∧
  (QString_contains_QRegExp text "^.{72}S\s*[0-9]+\s*[\n\r\f]" ||
   QString_contains_QRegExp text "^\s*ISO-10303-21\s*;\s*HEADER" ||
   QString_contains_QRegExp text "^\s*DBRep_DrawableShape" ||
   QString_contains_QRegExp text "^\s*solid" = false) ∧
  IO.quint32_of_bytes Q_BYTE_ORDER (take 4 (drop 80 file)) = 1 ∧
  Z.of_nat (length file) = 84 + 50 * 1 ∧
  84 + 50 * 1 < 2 ^ 32 ∧
  IO.partFormat DemoIO.files filename = IO.BinaryStlFormat.
Proof.
  intros filename file suffix text.
  assert (Hsuffix : QString_eq suffix "step" || QString_eq suffix "stp" ||
                    QString_eq suffix "iges" || QString_eq suffix "igs" ||
                    QString_eq suffix "brep" || QString_eq suffix "rle" ||
                    QString_eq suffix "stla" || QString_eq suffix "stlb" = false)
    by (vm_compute; reflexivity).
  assert (Hfile : DemoIO.files filename = Some file) by (vm_compute; reflexivity).
  assert (Htext : QString_contains_QRegExp text "^.{72}S\s*[0-9]+\s*[\n\r\f]" ||
                  QString_contains_QRegExp text "^\s*ISO-10303-21\s*;\s*HEADER" ||
                  QString_contains_QRegExp text "^\s*DBRep_DrawableShape" ||
                  QString_contains_QRegExp text "^\s*solid" = false)
    by (vm_compute; reflexivity).
  assert (Hcount : IO.quint32_of_bytes Q_BYTE_ORDER (take 4 (drop 80 file)) = 1)
    by (vm_compute; reflexivity).
  assert (Hsize : Z.of_nat (length file) = 84 + 50 * 1) by (vm_compute; reflexivity).
  assert (Hsmall : 84 + 50 * 1 < 2 ^ 32) by (vm_compute; reflexivity).
  split; [exact Hsuffix|]. split; [exact Hfile|]. split; [exact Htext|].
  split; [exact Hcount|]. split; [exact Hsize|]. split; [exact Hsmall|].
  exact (partFormat_accepts_binary_stl (Qt := DemoIO.qt) DemoIO.files filename file 1
           Hsuffix Hfile Htext Hcount Hsize Hsmall).
Defined.

(** ** [prepare] under an allocator that reuses addresses *)

Lemma prepare_with_heap_new `{K : GeomKernel} faces h this :
  prepare_with heap_new faces h this = prepare faces h this.
Proof.
  unfold prepare_with, prepare. destruct (releaseMemory h this) as [[h1 this1]|]; [|done].
  cbn [mbind Result_bind]. generalize (_projectors this1).
  assert (Halloc : ∀ fs h0 ps,
            allocate_projectors_with heap_new fs h0 ps = allocate_projectors fs h0 ps).
  { induction fs as [|f fs IH]; intros h0 ps; [done|]. cbn. apply IH. }
  intros ps. by rewrite Halloc.
Qed.

(** The run [prepare], [compute], [prepare] when [new] gives the second
    [prepare] the address the first projector was deleted at: nothing faults, the pool holds the new
    face only, and [isDone()] and [solutionFace()] answer from the new
    projector with the face of the previous shape. *)
Example demo_prepare_reusing_address :
  let s1 := Demo.queried Demo.query [Demo.PlaneZ 0] in
  match prepare_with heap_new_reuse [Demo.PlaneZ 10] s1.1 s1.2 with
  | Ok (h, this) =>
      _projectors this = [(1%N, Demo.PlaneZ 10)] ∧
      _solProjector this = (1%N, Demo.PlaneZ 0) ∧
      isDone h this = Ok true ∧
      solutionFace h this = Ok (Demo.PlaneZ 0)
  | Err _ => False
  end.
Proof. vm_compute. by repeat split. Qed.
